(** * text-to-qrcode: the capacity-aware text splitter and its facade

    A shallow embedding of [src/text_to_qr.py] (class [TextToQRCode]) and a
    verification of the properties its specification states.

    Modelling choices, all taken from the Python source:
    - a Python [str] is a list of code points ([N]); [len(text)] is the
      length of that list;
    - a Python [bytes] object is a list of byte values (also [N], every
      value produced by the encoder is below 256);
    - [str.encode('utf-8')] and [bytes.decode('utf-8')] are the strict
      CPython codecs: the encoder raises on lone surrogates, the decoder
      raises on anything that is not a well-formed UTF-8 sequence;
    - a text has a UTF-8 byte length when the encoder accepts it; the
      theorems speak of such texts through [Utf8.encode text = Some bs];
    - lengths and slice indices are [nat] (the loop never produces a
      negative index);
    - a raised exception is the [Raise] case of [result];
    - the class attribute [MAX_BYTES_PER_QR] is a [gmap] from level names
      to budgets, looked up with [!!] (a missing key is [KeyError]);
    - the external QR encoder and the file system are Section variables. *)

From Stdlib Require Import NArith Lia DecimalNat.
From stdpp Require Import base numbers option list strings gmap.

(** ** Exceptions *)

Inductive exn : Type :=
  | KeyError
  | UnicodeEncodeError
  | UnicodeDecodeError
  | DataOverflowError
  | OSError.

Inductive result (A : Type) : Type :=
  | Ok (a : A)
  | Raise (e : exn).

Arguments Ok {A} a.
Arguments Raise {A} e.

#[global] Instance result_ret : MRet result := fun A a => Ok a.
#[global] Instance result_bind : MBind result := fun A B f m =>
  match m with
  | Ok a => f a
  | Raise e => Raise e
  end.

Definition of_option {A : Type} (e : exn) (o : option A) : result A :=
  match o with
  | Some a => Ok a
  | None => Raise e
  end.

Definition is_Ok {A : Type} (r : result A) : Prop := ∃ a, r = Ok a.

(** ** The UTF-8 codec ([str.encode('utf-8')], [bytes.decode('utf-8')]) *)

Module Utf8.

Local Open Scope N_scope.

Definition is_surrogate (c : N) : bool := (0xD800 <=? c) && (c <=? 0xDFFF).

(** One code point to its UTF-8 bytes; [None] for a lone surrogate (CPython
    raises UnicodeEncodeError) and for values above U+10FFFF, which no
    Python [str] contains. *)
Definition encode_char (c : N) : option (list N) :=
  if c <? 0x80 then Some [c]
  else if c <? 0x800 then Some [0xC0 + c / 64; 0x80 + c mod 64]
  else if c <? 0x10000 then
    if is_surrogate c then None
    else Some [0xE0 + c / 4096; 0x80 + (c / 64) mod 64; 0x80 + c mod 64]
  else if c <? 0x110000 then
    Some [0xF0 + c / 262144; 0x80 + (c / 4096) mod 64;
          0x80 + (c / 64) mod 64; 0x80 + c mod 64]
  else None.

Fixpoint encode (t : list N) : option (list N) :=
  match t with
  | [] => Some []
  | c :: t' =>
      match encode_char c, encode t' with
      | Some b, Some bs => Some (b ++ bs)
      | _, _ => None
      end
  end.

(** A continuation byte, 10xxxxxx. *)
Definition is_cont (b : N) : bool := (0x80 <=? b) && (b <? 0xC0).

Definition cp2 (b0 b1 : N) : N := (b0 - 0xC0) * 64 + (b1 - 0x80).
Definition cp3 (b0 b1 b2 : N) : N :=
  (b0 - 0xE0) * 4096 + (b1 - 0x80) * 64 + (b2 - 0x80).
Definition cp4 (b0 b1 b2 b3 : N) : N :=
  (b0 - 0xF0) * 262144 + (b1 - 0x80) * 4096 + (b2 - 0x80) * 64 + (b3 - 0x80).

Definition ok3 (b0 b1 b2 : N) : bool :=
  is_cont b1 && is_cont b2 && (0x800 <=? cp3 b0 b1 b2)
  && negb (is_surrogate (cp3 b0 b1 b2)).

Definition ok4 (b0 b1 b2 b3 : N) : bool :=
  is_cont b1 && is_cont b2 && is_cont b3
  && (0x10000 <=? cp4 b0 b1 b2 b3) && (cp4 b0 b1 b2 b3 <? 0x110000).

(** The strict decoder: the lead byte fixes the sequence length; overlong
    forms (lead bytes C0, C1, and three- or four-byte forms of small
    values), surrogates, values above U+10FFFF, stray continuation bytes
    and truncated sequences are all rejected. *)
Fixpoint decode (bs : list N) : option (list N) :=
  match bs with
  | [] => Some []
  | b0 :: r0 =>
      if b0 <? 0x80 then cons b0 <$> decode r0
      else if b0 <? 0xC2 then None
      else if b0 <? 0xE0 then
        match r0 with
        | b1 :: r1 =>
            if is_cont b1 then cons (cp2 b0 b1) <$> decode r1 else None
        | _ => None
        end
      else if b0 <? 0xF0 then
        match r0 with
        | b1 :: b2 :: r2 =>
            if ok3 b0 b1 b2 then cons (cp3 b0 b1 b2) <$> decode r2 else None
        | _ => None
        end
      else if b0 <? 0xF5 then
        match r0 with
        | b1 :: b2 :: b3 :: r3 =>
            if ok4 b0 b1 b2 b3
            then cons (cp4 b0 b1 b2 b3) <$> decode r3 else None
        | _ => None
        end
      else None
  end.

End Utf8.

Definition str_encode (text : list N) : result (list N) :=
  of_option UnicodeEncodeError (Utf8.encode text).

Definition bytes_decode (bs : list N) : result (list N) :=
  of_option UnicodeDecodeError (Utf8.decode bs).

(** ** The class [TextToQRCode] *)

(** The instance attributes set by [__init__]. *)
Record TextToQRCode : Type := {
  error_correction_level : string;
  box_size : Z;
  border : Z;
}.

(** The class attribute [MAX_BYTES_PER_QR]. *)
Definition MAX_BYTES_PER_QR : gmap string nat :=
  {[ "L" := 2900; "M" := 2300; "Q" := 1600; "H" := 1200 ]}.

(** [d[k]] on a dict: [KeyError] when the key is absent. *)
Definition dict_get {V : Type} (d : gmap string V) (k : string) : result V :=
  of_option KeyError (d !! k).

(** [math.ceil(a / b)] for non-negative [a] and positive [b].  Python
    divides the two integers into a correctly rounded double and takes its
    ceiling; for every byte length below 2^52 and the budgets of
    [MAX_BYTES_PER_QR] the rounding error is smaller than the distance of
    the quotient to the next integer, so the result is the integer
    ceiling. *)
Definition ceil_div (a b : nat) : nat :=
  a / b + (if a mod b =? 0 then 0 else 1).

(** An ASCII literal as a [str]. *)
Definition lit (s : string) : list N :=
  map Ascii.N_of_ascii (String.list_ascii_of_string s).

Fixpoint uint_str (d : Decimal.uint) : list N :=
  match d with
  | Decimal.Nil => []
  | Decimal.D0 d => 48%N :: uint_str d
  | Decimal.D1 d => 49%N :: uint_str d
  | Decimal.D2 d => 50%N :: uint_str d
  | Decimal.D3 d => 51%N :: uint_str d
  | Decimal.D4 d => 52%N :: uint_str d
  | Decimal.D5 d => 53%N :: uint_str d
  | Decimal.D6 d => 54%N :: uint_str d
  | Decimal.D7 d => 55%N :: uint_str d
  | Decimal.D8 d => 56%N :: uint_str d
  | Decimal.D9 d => 57%N :: uint_str d
  end.

(** [f"{n}"] for a non-negative integer: its decimal digits. *)
Definition str_of_int (n : nat) : list N := uint_str (Nat.to_uint n).

(** [f"[{i}/{n}]\n"], the part marker. *)
Definition part_prefix (i n : nat) : list N :=
  lit "[" ++ str_of_int i ++ lit "/" ++ str_of_int n ++ lit "]" ++ [10%N].

(** [text_bytes[start:end]]. *)
Definition slice (bs : list N) (start end_ : nat) : list N :=
  take (end_ - start) (drop start bs).

(** The inner [while end < len(text_bytes)] loop of [split_text]: try to
    decode the window, leave the loop on success, step [end] back by one
    byte on UnicodeDecodeError.  The empty window always decodes, so [end]
    never goes below [start] and the [0] case is never taken on failure. *)
Fixpoint adjust_end (text_bytes : list N) (start end_ : nat) : nat :=
  if length text_bytes <=? end_ then end_
  else
    match Utf8.decode (slice text_bytes start end_) with
    | Some _ => end_
    | None =>
        match end_ with
        | O => O
        | S e => adjust_end text_bytes start e
        end
    end.

(** The string appended to [parts]: the payload behind its part marker
    when there is more than one part, the bare payload otherwise. *)
Definition labelled (num_parts i : nat) (part_text : list N) : list N :=
  if 1 <? num_parts then part_prefix (i + 1) num_parts ++ part_text
  else part_text.

(** The body of [for i in range(num_parts)], over the remaining indices
    [is_], threading [start] and the accumulated [parts]. *)
Fixpoint split_loop (text_bytes : list N) (max_bytes num_parts : nat)
    (is_ : list nat) (start : nat) (parts : list (list N))
    : result (list (list N)) :=
  match is_ with
  | [] => Ok parts
  | i :: is' =>
      let end_ :=
        adjust_end text_bytes start
          (min (start + max_bytes) (length text_bytes)) in
      part_text ← bytes_decode (slice text_bytes start end_);
      split_loop text_bytes max_bytes num_parts is' end_
        (parts ++ [labelled num_parts i part_text])
  end.

(** The byte windows [(start, end)] the loop settles on in [k] rounds
    from [start]: the same boundary computation, without the decoding. *)
Fixpoint split_windows (text_bytes : list N) (max_bytes k start : nat)
    : list (nat * nat) :=
  match k with
  | O => []
  | S k' =>
      let end_ :=
        adjust_end text_bytes start
          (min (start + max_bytes) (length text_bytes)) in
      (start, end_) :: split_windows text_bytes max_bytes k' end_
  end.

Definition split_text (self : TextToQRCode) (text : list N)
    : result (list (list N)) :=
  max_bytes ← dict_get MAX_BYTES_PER_QR (error_correction_level self);
  text_bytes ← str_encode text;
  if length text_bytes <=? max_bytes then Ok [text]
  else
    let num_parts := ceil_div (length text_bytes) max_bytes in
    split_loop text_bytes max_bytes num_parts (seq 0 num_parts) 0 [].

(** The dict returned by [get_text_info]. *)
Record TextInfo : Type := {
  char_count : nat;
  byte_count : nat;
  max_bytes_per_qr : nat;
  num_qrcodes : nat;
  error_correction : string;
}.

Definition get_text_info (self : TextToQRCode) (text : list N)
    : result TextInfo :=
  text_bytes ← str_encode text;
  max_bytes ← dict_get MAX_BYTES_PER_QR (error_correction_level self);
  let num_qrcodes := ceil_div (length text_bytes) max_bytes in
  Ok {| char_count := length text;
        byte_count := length text_bytes;
        max_bytes_per_qr := max_bytes;
        num_qrcodes := num_qrcodes;
        error_correction := error_correction_level self |}.

(** The constants of the external [qrcode] package. *)
Inductive qr_constant : Type :=
  | ERROR_CORRECT_L
  | ERROR_CORRECT_M
  | ERROR_CORRECT_Q
  | ERROR_CORRECT_H.

(** [self.error_correction_map], built by [__init__]. *)
Definition error_correction_map : gmap string qr_constant :=
  {[ "L" := ERROR_CORRECT_L; "M" := ERROR_CORRECT_M;
     "Q" := ERROR_CORRECT_Q; "H" := ERROR_CORRECT_H ]}.

Section Facade.

(** The external collaborators: the QR encoder ([qrcode.QRCode] with
    [add_data], [make] and [make_image]), which may raise, and
    [img.save], which acts on the file system and may raise. *)
Context {image fs : Type}.
Variable qr_make : qr_constant → Z → Z → list N → result image.
Variable img_save : image → list N → fs → fs * result unit.

Definition generate_qrcode (self : TextToQRCode) (text : list N)
    : result image :=
  ec ← dict_get error_correction_map (error_correction_level self);
  qr_make ec (box_size self) (border self) text.

(** [for part in text_parts] of [generate_qrcode_images]. *)
Fixpoint images_loop (self : TextToQRCode) (text_parts : list (list N))
    (images : list (image * list N)) : result (list (image * list N)) :=
  match text_parts with
  | [] => Ok images
  | part :: rest =>
      img ← generate_qrcode self part;
      images_loop self rest (images ++ [(img, part)])
  end.

Definition generate_qrcode_images (self : TextToQRCode) (text : list N)
    : result (list (image * list N)) :=
  text_parts ← split_text self text;
  images_loop self text_parts [].

(** The file name chosen for the part at (0-based) index [i] of [n]. *)
Definition part_filename (output_prefix : list N) (i n : nat) : list N :=
  if 1 <? n
  then output_prefix ++ lit "_" ++ str_of_int (i + 1) ++ lit "_of_"
         ++ str_of_int n ++ lit ".png"
  else output_prefix ++ lit ".png".

(** [for i, part in enumerate(text_parts)] of [text_to_qrcode]; [n] is
    [len(text_parts)], [i] the index of the head of [rest]. *)
Fixpoint save_loop (self : TextToQRCode) (output_prefix : list N)
    (n i : nat) (rest : list (list N)) (image_paths : list (list N))
    (st : fs) : fs * result (list (list N)) :=
  match rest with
  | [] => (st, Ok image_paths)
  | part :: rest' =>
      match generate_qrcode self part with
      | Raise e => (st, Raise e)
      | Ok img =>
          let filename := part_filename output_prefix i n in
          match img_save img filename st with
          | (st', Raise e) => (st', Raise e)
          | (st', Ok _) =>
              save_loop self output_prefix n (S i) rest'
                (image_paths ++ [filename]) st'
          end
      end
  end.

Definition text_to_qrcode (self : TextToQRCode) (text output_prefix : list N)
    (st : fs) : fs * result (list (list N)) :=
  match split_text self text with
  | Raise e => (st, Raise e)
  | Ok text_parts =>
      save_loop self output_prefix (length text_parts) 0 text_parts [] st
  end.

End Facade.

(** ** Notions used to state the properties *)

(** The number a string of decimal digit characters denotes. *)
Definition digits_value (ds : list N) : nat :=
  foldl (λ acc d, 10 * acc + N.to_nat (d - 48)) 0 ds.

(** [ds] is the decimal numeral of [n]: a non-empty string of the
    characters '0' to '9' that denotes [n], without a leading '0' unless
    it is "0" itself. *)
Definition is_decimal (ds : list N) (n : nat) : Prop :=
  ds ≠ [] ∧
  Forall (λ d, (48 ≤ d ≤ 57)%N) ds ∧
  digits_value ds = n ∧
  (ds = [48%N] ∨ head ds ≠ Some 48%N).

(** What is to hold of a window [w = (start, end)] of [bs] and the payload
    [p] read from it under the budget [m]: the window decodes to [p], [p]
    is not empty, and the window is a non-empty range of at most [m] bytes
    inside [bs]. *)
Definition window_ok (bs : list N) (m : nat) (w : nat * nat) (p : list N)
    : Prop :=
  Utf8.decode (slice bs w.1 w.2) = Some p ∧ p ≠ [] ∧
  w.1 < w.2 ∧ w.2 ≤ w.1 + m ∧ w.2 ≤ length bs.

(** [strip pre seg]: [seg] without its leading [pre], if it starts with
    it. *)
Fixpoint strip (pre seg : list N) : option (list N) :=
  match pre, seg with
  | [], _ => Some seg
  | c :: pre', d :: seg' => if (c =? d)%N then strip pre' seg' else None
  | _ :: _, [] => None
  end.

(** The payload of the segment at 0-based index [i] of [n], as the
    specification describes it: the segment stripped of the injected
    marker ["[i+1/n]\n"]. *)
Definition strip_marker (n i : nat) (seg : list N) : option (list N) :=
  strip (part_prefix (i + 1) n) seg.

(** The payloads of all segments, concatenated in order. *)
Definition reassemble (segs : list (list N)) : option (list N) :=
  @List.concat N <$> mapM id (imap (strip_marker (length segs)) segs).

(** Concrete configurations and inputs. *)
Definition converter (level : string) : TextToQRCode :=
  {| error_correction_level := level; box_size := 10; border := 4 |}.

(** 1199 letters, one two-byte character that straddles byte 1200, and
    1199 more letters: 2400 bytes in all. *)
Definition straddling_text : list N :=
  replicate 1199 97%N ++ [233%N] ++ replicate 1199 97%N.

(** 1201 letters: one byte more than the budget of level H. *)
Definition one_over_text : list N := replicate 1201 97%N.

(** Stand-ins for the external collaborators: an encoder whose image is
    the text it was given, and a file system that is the list of the
    files written so far. *)
Definition echo_encoder (ec : qr_constant) (box border : Z) (text : list N)
    : result (list N) := Ok text.

Definition log_save (img name : list N) (st : list (list N * list N))
    : list (list N * list N) * result unit := (st ++ [(name, img)], Ok ()).

(** Where the loop stands after [k] rounds from [start]: the end of the
    last window, the first byte that no window has read. *)
Fixpoint final_end (text_bytes : list N) (max_bytes k start : nat) : nat :=
  match k with
  | O => start
  | S k' =>
      final_end text_bytes max_bytes k'
        (adjust_end text_bytes start
           (min (start + max_bytes) (length text_bytes)))
  end.


(** Saving the images of [jobs], each under its file name, one after
    another from the file-system state [st], stopping at the first save
    that raises. *)
Fixpoint run_saves {image fs : Type}
    (img_save : image → list N → fs → fs * result unit)
    (jobs : list (image * list N)) (st : fs) : fs * result unit :=
  match jobs with
  | [] => (st, Ok ())
  | (img, name) :: rest =>
      match img_save img name st with
      | (st', Ok _) => run_saves img_save rest st'
      | (st', Raise e) => (st', Raise e)
      end
  end.

(** ** The command line front end ([src/cli.py])

    [main] after [parser.parse_args()]: the parsed arguments are a record,
    the file to read, the standard input and [os.path.getsize] are
    parameters, [sys.exit] and an exception that nothing catches end the
    run with a [status], and what is printed is the list of [message]s
    (one per [print] or block of [print]s, with the values it shows;
    [print] itself is taken not to raise). *)

Module Cli.

(** The characters [str.strip()] removes ([str.isspace]). *)
Definition is_space (c : N) : bool :=
  ((9 <=? c) && (c <=? 13) || (28 <=? c) && (c <=? 32)
   || (c =? 0x85) || (c =? 0xA0) || (c =? 0x1680)
   || (0x2000 <=? c) && (c <=? 0x200A)
   || (c =? 0x2028) || (c =? 0x2029) || (c =? 0x202F) || (c =? 0x205F)
   || (c =? 0x3000))%N.

Fixpoint lstrip (s : list N) : list N :=
  match s with
  | [] => []
  | c :: s' => if is_space c then lstrip s' else s
  end.

(** [s.strip()]. *)
Definition str_strip (s : list N) : list N :=
  reverse (lstrip (reverse (lstrip s))).

(** [not text or text.strip() == ''] *)
Definition blank (text : list N) : bool :=
  match text with
  | [] => true
  | _ => match str_strip text with [] => true | _ => false end
  end.

(** The [argparse] namespace. *)
Record Namespace : Type := {
  args_text : option (list N);
  args_file : option (list N);
  args_output : list N;
  args_error_correction : string;
  args_box_size : Z;
  args_border : Z;
  args_info : bool;
}.

(** [TextToQRCode(error_correction=args.error_correction,
    box_size=args.box_size, border=args.border)]. *)
Definition converter_of (args : Namespace) : TextToQRCode :=
  {| error_correction_level := args_error_correction args;
     box_size := args_box_size args;
     border := args_border args |}.

(** The [choices] of [--error-correction]. *)
Definition choices : list string := ["L"; "M"; "Q"; "H"].

(** What [open(filepath).read()] does: the text, FileNotFoundError, or
    any other exception. *)
Inductive read_result : Type :=
  | ReadText (s : list N)
  | ReadNotFound
  | ReadFailed.

(** What [sys.stdin.read()] does: the text, KeyboardInterrupt, or another
    exception. *)
Inductive stdin_result : Type :=
  | StdinText (s : list N)
  | StdinInterrupt
  | StdinFailed (e : exn).

Inductive message : Type :=
  | ErrFileNotFound (filepath : list N)
  | ErrReadFailed
  | Prompt
  | Cancelled
  | ErrEmptyText
  | InfoBlock (info : TextInfo)
  | NoteSplit (n : nat)
  | Generating
  | Success
  | FileLine (i : nat) (path : list N) (file_size : nat)
  | Hint (several : bool)
  | ErrGenerate (e : exn).

Inductive status : Type :=
  | Exit (code : nat)
  | Uncaught (e : exn).

Record outcome (fs : Type) : Type := {
  out : list message;
  files : fs;
  ended : status;
}.

Arguments out {fs} _.
Arguments files {fs} _.
Arguments ended {fs} _.

Section Main.

Context {image fs : Type}.
Variable open_read : fs → list N → read_result.
Variable stdin_read : stdin_result.
Variable getsize : fs → list N → result nat.
Variable qr_make : qr_constant → Z → Z → list N → result image.
Variable img_save : image → list N → fs → fs * result unit.

Definition read_from_file (st : fs) (filepath : list N)
    : list message * (status + list N) :=
  match open_read st filepath with
  | ReadText s => ([], inr s)
  | ReadNotFound => ([ErrFileNotFound filepath], inl (Exit 1))
  | ReadFailed => ([ErrReadFailed], inl (Exit 1))
  end.

Definition read_from_stdin : list message * (status + list N) :=
  match stdin_read with
  | StdinText s => ([Prompt], inr s)
  | StdinInterrupt => ([Prompt; Cancelled], inl (Exit 0))
  | StdinFailed e => ([Prompt], inl (Uncaught e))
  end.

(** [if args.text: ... elif args.file: ... else: ...]: an absent and an
    empty option are both false. *)
Definition acquire (args : Namespace) (st : fs)
    : list message * (status + list N) :=
  match args_text args with
  | Some (c :: t) => ([], inr (c :: t))
  | _ =>
      match args_file args with
      | Some (c :: p) => read_from_file st (c :: p)
      | _ => read_from_stdin
      end
  end.

(** [for i, path in enumerate(image_paths, 1)]: one line per file, until
    [os.path.getsize] raises. *)
Fixpoint list_files (st : fs) (i : nat) (image_paths : list (list N))
    : list message * result unit :=
  match image_paths with
  | [] => ([], Ok ())
  | path :: rest =>
      match getsize st path with
      | Raise e => ([], Raise e)
      | Ok file_size =>
          let (lines, r) := list_files st (S i) rest in
          (FileLine i path file_size :: lines, r)
      end
  end.

Definition main (args : Namespace) (st : fs) : outcome fs :=
  match acquire args st with
  | (ms, inl s) => {| out := ms; files := st; ended := s |}
  | (ms, inr text) =>
      if blank text
      then {| out := ms ++ [ErrEmptyText]; files := st; ended := Exit 1 |}
      else
        let converter := converter_of args in
        match get_text_info converter text with
        | Raise e => {| out := ms; files := st; ended := Uncaught e |}
        | Ok info =>
            let ms1 :=
              ms ++ [InfoBlock info]
                 ++ (if 1 <? num_qrcodes info
                     then [NoteSplit (num_qrcodes info)] else []) in
            if args_info args
            then {| out := ms1; files := st; ended := Exit 0 |}
            else
              match
                text_to_qrcode qr_make img_save converter text
                  (args_output args) st
              with
              | (st', Raise e) =>
                  {| out := ms1 ++ [Generating; ErrGenerate e];
                     files := st'; ended := Exit 1 |}
              | (st', Ok image_paths) =>
                  match list_files st' 1 image_paths with
                  | (lines, Raise e) =>
                      {| out := ms1 ++ [Generating; Success] ++ lines
                                    ++ [ErrGenerate e];
                         files := st'; ended := Exit 1 |}
                  | (lines, Ok _) =>
                      {| out := ms1 ++ [Generating; Success] ++ lines
                                    ++ [Hint (1 <? num_qrcodes info)];
                         files := st'; ended := Exit 0 |}
                  end
              end
        end
  end.

End Main.

End Cli.

(** ** The window front end ([src/gui.py]) *)

Module Gui.

(** The [values] of the read-only level combobox. *)
Definition combobox_values : list string :=
  ["L (7%)"; "M (15%)"; "Q (25%)"; "H (30%)"].

(** [get_error_correction_level]: [value[0]]; [None] is the IndexError of
    an empty value. *)
Definition get_error_correction_level (value : string) : option string :=
  match value with
  | EmptyString => None
  | String c _ => Some (String c EmptyString)
  end.

End Gui.

(** More stand-ins for the surroundings: an encoder that refuses texts of
    fewer than [least] characters, a file that is not there, a standard
    input that delivers [s], and a file size that is always known. *)
Definition picky_encoder (least : nat) (ec : qr_constant) (box border : Z)
    (text : list N) : result (list N) :=
  if least <=? length text then Ok text else Raise DataOverflowError.

Definition absent_file {fs : Type} (st : fs) (filepath : list N)
    : Cli.read_result := Cli.ReadNotFound.

Definition known_size {fs : Type} (st : fs) (path : list N) : result nat :=
  Ok 0.

(** 1199 letters, one two-byte character that straddles byte 1200, and
    1000 more letters: 2201 bytes in all. *)
Definition accented_text : list N :=
  replicate 1199 97%N ++ [233%N] ++ replicate 1000 97%N.

(** The arguments of [cli.py -t <text> -e <level>] and of
    [cli.py -t <text> -e <level> -i]. *)
Definition args_of (text : list N) (level : string) (info : bool)
    : Cli.Namespace :=
  {| Cli.args_text := Some text; Cli.args_file := None;
     Cli.args_output := lit "qrcode"; Cli.args_error_correction := level;
     Cli.args_box_size := 10; Cli.args_border := 4; Cli.args_info := info |}.

(** * Verification *)

(** ** The codec *)

Module Utf8Facts.
Import Utf8.
Local Open Scope N_scope.

Local Ltac euclid := zify; Z.to_euclidean_division_equations; lia.

Local Ltac cmp :=
  repeat match goal with
  | |- context [N.ltb ?a ?b] =>
      destruct (N.ltb_spec a b); try (exfalso; euclid)
  | |- context [N.leb ?a ?b] =>
      destruct (N.leb_spec a b); try (exfalso; euclid)
  end.

Local Ltac bool_hyps :=
  repeat match goal with
  | H : (_ && _) = true |- _ => apply andb_prop in H as [? ?]
  | H : negb _ = true |- _ => apply negb_true_iff in H
  | H : (_ <=? _) = true |- _ => apply N.leb_le in H
  | H : (_ <? _) = true |- _ => apply N.ltb_lt in H
  end.

Lemma decode_nil : decode [] = Some [].
Proof. reflexivity. Qed.

(** The decoder is greedy and looks at no byte beyond the sequence it is
    reading: a decodable prefix is decoded on its own. *)
Lemma decode_app (a b : list N) (u : list N) :
  decode a = Some u → decode (a ++ b) = (u ++.) <$> decode b.
Proof.
  remember (length a) as n eqn:Hn. revert a u Hn.
  induction n as [n IH] using lt_wf_ind. intros a u Hn Ha.
  destruct a as [|b0 r0].
  { injection Ha as <-. cbn. by destruct (decode b). }
  cbn [decode app] in *.
  assert (Hrec : ∀ (r v : list N) (c : N),
    (length r < length (b0 :: r0))%nat →
    cons c <$> decode r = Some u →
    cons c <$> decode (r ++ b) = (u ++.) <$> decode b).
  { intros r v c Hlen Hr.
    destruct (decode r) as [w|] eqn:Hw; [|done].
    injection Hr as <-. rewrite (IH (length r) ltac:(lia) r w eq_refl Hw).
    by destruct (decode b). }
  destruct (b0 <? 0x80); [apply (Hrec r0 u b0); [cbn; lia|done]|].
  destruct (b0 <? 0xC2); [done|].
  destruct (b0 <? 0xE0).
  { destruct r0 as [|b1 r1]; [done|]. cbn [app].
    destruct (is_cont b1); [|done].
    apply (Hrec r1 u); [cbn; lia|done]. }
  destruct (b0 <? 0xF0).
  { destruct r0 as [|b1 [|b2 r2]]; [done..|]. cbn [app].
    destruct (ok3 b0 b1 b2); [|done].
    apply (Hrec r2 u); [cbn; lia|done]. }
  destruct (b0 <? 0xF5); [|done].
  destruct r0 as [|b1 [|b2 [|b3 r3]]]; [done..|]. cbn [app].
  destruct (ok4 b0 b1 b2 b3); [|done].
  apply (Hrec r3 u); [cbn; lia|done].
Qed.

Lemma decode_app_is_Some (a b : list N) :
  is_Some (decode a) → is_Some (decode (a ++ b)) → is_Some (decode b).
Proof.
  intros [u Hu] [v Hv]. rewrite (decode_app _ b _ Hu) in Hv.
  destruct (decode b); [eauto|done].
Qed.

(** Every code point the encoder accepts is read back by the decoder. *)
Lemma decode_encode_char (c : N) (bs r : list N) :
  encode_char c = Some bs → decode (bs ++ r) = cons c <$> decode r.
Proof.
  unfold encode_char, is_surrogate. intros H.
  destruct (N.ltb_spec c 0x80).
  { injection H as <-. cbn [app decode]. by cmp. }
  destruct (N.ltb_spec c 0x800).
  { injection H as <-. cbn [app decode]. unfold is_cont, cp2.
    cmp. cbn. do 2 f_equal. euclid. }
  destruct (N.ltb_spec c 0x10000).
  { destruct (N.leb_spec 0xD800 c); destruct (N.leb_spec c 0xDFFF);
      cbn in H; try done; injection H as <-; cbn [app decode];
      unfold ok3, is_cont, is_surrogate, cp3.
    all: cmp; cbn; do 2 f_equal; euclid. }
  destruct (N.ltb_spec c 0x110000); [|done].
  injection H as <-. cbn [app decode]. unfold ok4, is_cont, cp4.
  cmp. cbn. do 2 f_equal. euclid.
Qed.

Lemma decode_encode (t bs : list N) :
  encode t = Some bs → decode bs = Some t.
Proof.
  revert bs. induction t as [|c t IH]; intros bs H.
  { by injection H as <-. }
  cbn [encode] in H.
  destruct (encode_char c) as [b|] eqn:Hc; [|done].
  destruct (encode t) as [bs'|] eqn:Ht; [|done].
  injection H as <-. rewrite (decode_encode_char _ _ _ Hc).
  by rewrite (IH _ eq_refl).
Qed.

(** A decodable, non-empty byte string starts with a complete sequence of
    at most four bytes. *)
Lemma decode_first_char (bs u : list N) :
  decode bs = Some u → bs ≠ [] →
  ∃ k, (1 ≤ k ≤ 4)%nat ∧ (k ≤ length bs)%nat ∧ is_Some (decode (take k bs)).
Proof.
  intros H Hne. destruct bs as [|b0 r0]; [done|]. cbn [decode] in H.
  destruct (b0 <? 0x80) eqn:E1.
  { exists 1%nat. cbn [take decode length]. rewrite E1.
    split_and!; [lia..|by eexists]. }
  destruct (b0 <? 0xC2) eqn:E2; [done|].
  destruct (b0 <? 0xE0) eqn:E3.
  { destruct r0 as [|b1 r1]; [done|].
    destruct (is_cont b1) eqn:C1; [|done].
    exists 2%nat. cbn [take decode length]. rewrite E1, E2, E3, C1.
    split_and!; [lia..|by eexists]. }
  destruct (b0 <? 0xF0) eqn:E4.
  { destruct r0 as [|b1 [|b2 r2]]; [done..|].
    destruct (ok3 b0 b1 b2) eqn:C1; [|done].
    exists 3%nat. cbn [take decode length]. rewrite E1, E2, E3, E4, C1.
    split_and!; [lia..|by eexists]. }
  destruct (b0 <? 0xF5) eqn:E5; [|done].
  destruct r0 as [|b1 [|b2 [|b3 r3]]]; [done..|].
  destruct (ok4 b0 b1 b2 b3) eqn:C1; [|done].
  exists 4%nat. cbn [take decode length]. rewrite E1, E2, E3, E4, E5, C1.
  split_and!; [lia..|by eexists].
Qed.

(** Only the empty byte string decodes to the empty text. *)
Lemma decode_nil_inv (bs : list N) : decode bs = Some [] → bs = [].
Proof.
  destruct bs as [|b0 r0]; [done|]. cbn [decode]. intros H. exfalso.
  repeat case_match; try discriminate H.
  all: match type of H with _ <$> ?o = _ => by destruct o end.
Qed.

(** The decoder accepts only the encoder's output: decoding is injective. *)
Lemma encode_decode (bs t : list N) :
  decode bs = Some t → encode t = Some bs.
Proof.
  remember (length bs) as n eqn:Hn. revert bs t Hn.
  induction n as [n IH] using lt_wf_ind. intros bs t Hn H.
  destruct bs as [|b0 r0]; [by injection H as <-|].
  cbn [decode] in H.
  assert (Hrec : ∀ (r p : list N) (c : N),
    (length r < n)%nat → encode_char c = Some p →
    cons c <$> decode r = Some t → encode t = Some (p ++ r)).
  { intros r p c Hlen Hc Hr.
    destruct (decode r) as [w|] eqn:Hw; [|done].
    injection Hr as <-. cbn [encode].
    by rewrite Hc, (IH (length r) Hlen r w eq_refl Hw). }
  subst n. cbn [length] in Hrec.
  destruct (N.ltb_spec b0 0x80).
  { apply (Hrec r0 [b0] b0); [lia| |done].
    unfold encode_char. by cmp. }
  destruct (N.ltb_spec b0 0xC2); [done|].
  destruct (N.ltb_spec b0 0xE0).
  { destruct r0 as [|b1 r1]; [done|].
    destruct (is_cont b1) eqn:C1; [|done].
    apply (Hrec r1 [b0; b1] (cp2 b0 b1)); [cbn; lia| |done].
    unfold is_cont in C1. bool_hyps.
    unfold encode_char, cp2. cmp. do 2 f_equal; [|f_equal]; euclid. }
  destruct (N.ltb_spec b0 0xF0).
  { destruct r0 as [|b1 [|b2 r2]]; [done..|].
    destruct (ok3 b0 b1 b2) eqn:C1; [|done].
    apply (Hrec r2 [b0; b1; b2] (cp3 b0 b1 b2)); [cbn; lia| |done].
    unfold ok3, is_cont in C1. bool_hyps.
    unfold encode_char.
    match goal with Hs : is_surrogate _ = false |- _ => rewrite Hs end.
    unfold cp3 in *. cmp.
    do 2 f_equal; [|f_equal; [|f_equal]]; euclid. }
  destruct (N.ltb_spec b0 0xF5); [|done].
  destruct r0 as [|b1 [|b2 [|b3 r3]]]; [done..|].
  destruct (ok4 b0 b1 b2 b3) eqn:C1; [|done].
  apply (Hrec r3 [b0; b1; b2; b3] (cp4 b0 b1 b2 b3)); [cbn; lia| |done].
  unfold ok4, is_cont in C1. bool_hyps.
  unfold encode_char, cp4 in *. cmp.
  do 2 f_equal; [|f_equal; [|f_equal; [|f_equal]]]; euclid.
Qed.

End Utf8Facts.

(** ** The splitter *)

Section Splitter.
Import Utf8 Utf8Facts.

Local Ltac leb_case :=
  match goal with
  | |- context [Nat.leb ?a ?b] => destruct (Nat.leb_spec a b)
  end.

Lemma ceil_div_upper (a b : nat) : 0 < b → a ≤ ceil_div a b * b.
Proof.
  intros Hb. unfold ceil_div.
  pose proof (Nat.div_mod_eq a b). pose proof (Nat.mod_upper_bound a b).
  destruct (Nat.eqb_spec (a mod b) 0); nia.
Qed.

Lemma ceil_div_lower (a b j : nat) :
  0 < b → 0 < a → ceil_div a b = S j → j * b < a.
Proof.
  intros Hb Ha. unfold ceil_div.
  pose proof (Nat.div_mod_eq a b). pose proof (Nat.mod_upper_bound a b).
  destruct (Nat.eqb_spec (a mod b) 0); nia.
Qed.

(** [ceil_div a b] is the least number of [b]-sized windows covering [a]. *)
Lemma ceil_div_least (a b n : nat) : 0 < b → a ≤ n * b → ceil_div a b ≤ n.
Proof.
  intros Hb Hn. unfold ceil_div.
  pose proof (Nat.div_mod_eq a b). pose proof (Nat.mod_upper_bound a b).
  destruct (Nat.eqb_spec (a mod b) 0); nia.
Qed.

Lemma slice_length (bs : list N) (s e : nat) :
  e ≤ length bs → length (slice bs s e) = e - s.
Proof. intros. unfold slice. rewrite length_take, length_drop. lia. Qed.

Lemma slice_to_end (bs : list N) (s : nat) :
  slice bs s (length bs) = drop s bs.
Proof. unfold slice. apply take_ge. rewrite length_drop. lia. Qed.

Lemma slice_split (bs : list N) (s e : nat) :
  s ≤ e → drop s bs = slice bs s e ++ drop e bs.
Proof.
  intros. unfold slice.
  rewrite <- (take_drop (e - s) (drop s bs)) at 1.
  rewrite drop_drop. do 2 f_equal. lia.
Qed.

Lemma adjust_end_le (bs : list N) (s e : nat) : adjust_end bs s e ≤ e.
Proof.
  induction e as [|e IH]; cbn [adjust_end]; repeat case_match; lia.
Qed.

Lemma adjust_end_full (bs : list N) (s e : nat) :
  length bs ≤ e → adjust_end bs s e = e.
Proof.
  intros H%Nat.leb_le. destruct e; cbn [adjust_end]; by rewrite H.
Qed.

(** Below the end of the bytes the loop is left by [break]: the window it
    settles on decodes. *)
Lemma adjust_end_decodes (bs : list N) (s e : nat) :
  e < length bs → is_Some (decode (slice bs s (adjust_end bs s e))).
Proof.
  induction e as [|e IH]; intros H; cbn [adjust_end];
    leb_case; try lia.
  - unfold slice. cbn. eauto.
  - destruct (decode (slice bs s (S e))) eqn:E; [by rewrite E|].
    apply IH. lia.
Qed.

(** The loop stops at the first boundary it meets: no decodable window
    ending at or before [e] is longer than the one it settles on. *)
Lemma adjust_end_ge (bs : list N) (s e e' : nat) :
  e < length bs → e' ≤ e → is_Some (decode (slice bs s e')) →
  e' ≤ adjust_end bs s e.
Proof.
  induction e as [|e IH]; intros H Hle Hdec; cbn [adjust_end];
    leb_case; try (repeat case_match; lia).
  destruct (decode (slice bs s (S e))) eqn:E; [lia|].
  apply IH; [lia| |done].
  destruct (decide (e' = S e)) as [->|]; [|lia].
  rewrite E in Hdec. by destruct Hdec.
Qed.

Lemma split_windows_length (bs : list N) (m k start : nat) :
  length (split_windows bs m k start) = k.
Proof. revert start. induction k; intros; cbn; [done|]. by rewrite IHk. Qed.

(** One round of the loop from a character boundary [start] before the end
    of the bytes: the window decodes, is not empty and ends on a
    boundary. *)
Lemma window_step (bs : list N) (m start : nat) :
  4 ≤ m → start < length bs → is_Some (decode (drop start bs)) →
  let e := adjust_end bs start (min (start + m) (length bs)) in
  (∃ p, window_ok bs m (start, e) p) ∧ is_Some (decode (drop e bs)).
Proof.
  intros Hm Hlt [u Hu]. cbn zeta.
  set (e0 := min (start + m) (length bs)).
  set (e := adjust_end bs start e0).
  destruct (decode_first_char (drop start bs) u Hu) as (k & Hk & Hkl & Hkd).
  { intros E. apply (f_equal length) in E. rewrite length_drop in E.
    cbn in E. lia. }
  rewrite length_drop in Hkl.
  assert (He : is_Some (decode (slice bs start e)) ∧ start + k ≤ e ∧ e ≤ e0).
  { destruct (decide (length bs ≤ e0)) as [Hfull|Hcut].
    - assert (e0 = length bs) as E0 by lia.
      unfold e. rewrite adjust_end_full by done. rewrite E0, slice_to_end.
      split; [eauto|lia].
    - split; [apply adjust_end_decodes; lia|]. split; [|apply adjust_end_le].
      apply adjust_end_ge; [lia|lia|].
      unfold slice. by replace (start + k - start) with k by lia. }
  destruct He as ([p Hp] & He1 & He2). split.
  - exists p. unfold window_ok. cbn [fst snd]. split_and!; [done| |lia..].
    intros ->. apply decode_nil_inv in Hp. apply (f_equal length) in Hp.
    rewrite slice_length in Hp by lia. cbn in Hp. lia.
  - apply (decode_app_is_Some (slice bs start e)); [eauto|].
    rewrite <- slice_split by lia. eauto.
Qed.

(** The loop, run from a character boundary with enough bytes left for
    every remaining round to start before the end, raises nothing and
    appends one labelled payload per index. *)
Lemma split_loop_ok (bs : list N) (m n : nat) (is_ : list nat) :
  4 ≤ m → ∀ (start : nat) (parts : list (list N)),
  is_Some (decode (drop start bs)) →
  (∀ j, length is_ = S j → start + j * m < length bs) →
  ∃ payloads,
    split_loop bs m n is_ start parts
      = Ok (parts ++ zip_with (labelled n) is_ payloads)
    ∧ Forall2 (window_ok bs m) (split_windows bs m (length is_) start)
        payloads.
Proof.
  intros Hm. induction is_ as [|i is' IH]; intros start parts Hdec Hroom.
  { exists []. cbn. rewrite app_nil_r. split; [done|constructor]. }
  pose proof (Hroom (length is') eq_refl) as Hlt.
  destruct (window_step bs m start Hm ltac:(lia) Hdec) as [[p Hp] Hnext].
  set (e := adjust_end bs start (min (start + m) (length bs))) in *.
  pose proof Hp as (Hp1 & _ & _ & Hp4 & _). cbn [fst snd] in Hp1, Hp4.
  destruct (IH e (parts ++ [labelled n i p]) Hnext) as (ps & Hps & Hwin).
  { intros j Hj. specialize (Hroom (S j)). cbn [length] in Hroom.
    rewrite Hj in Hroom. specialize (Hroom eq_refl). lia. }
  exists (p :: ps). split.
  - cbn [split_loop]. fold e. unfold bytes_decode.
    rewrite Hp1. cbn. rewrite Hps. by rewrite <- app_assoc.
  - cbn [split_windows length]. fold e. by constructor.
Qed.

End Splitter.

(** ** The capacity table *)

Lemma MAX_BYTES_PER_QR_lookup (level : string) (m : nat) :
  MAX_BYTES_PER_QR !! level = Some m ↔
  (level = "L" ∧ m = 2900) ∨ (level = "M" ∧ m = 2300) ∨
  (level = "Q" ∧ m = 1600) ∨ (level = "H" ∧ m = 1200).
Proof.
  split.
  - unfold MAX_BYTES_PER_QR. intros H.
    apply lookup_insert_Some in H as [[<- <-]|[_ H]]; [by left|].
    apply lookup_insert_Some in H as [[<- <-]|[_ H]]; [by right; left|].
    apply lookup_insert_Some in H as [[<- <-]|[_ H]]; [by do 2 right; left|].
    apply lookup_singleton_Some in H as [<- <-]. by do 3 right.
  - intros [[-> ->]|[[-> ->]|[[-> ->]|[-> ->]]]]; reflexivity.
Qed.

Lemma MAX_BYTES_PER_QR_undefined (level : string) :
  level ∉ ["L"; "M"; "Q"; "H"] → MAX_BYTES_PER_QR !! level = None.
Proof.
  intros Hl. destruct (MAX_BYTES_PER_QR !! level) as [m|] eqn:E; [|done].
  apply MAX_BYTES_PER_QR_lookup in E. exfalso. apply Hl.
  destruct E as [[-> _]|[[-> _]|[[-> _]|[-> _]]]]; repeat constructor.
Qed.

(** Every budget is positive and leaves room for one whole character. *)
Lemma budget_ge_4 (level : string) (m : nat) :
  MAX_BYTES_PER_QR !! level = Some m → 4 ≤ m.
Proof.
  intros [[_ ->]|[[_ ->]|[[_ ->]|[_ ->]]]]%MAX_BYTES_PER_QR_lookup;
    apply Nat.leb_le; reflexivity.
Qed.

(** ** Decimal rendering *)

Lemma uint_str_digits (d : Decimal.uint) :
  Forall (λ c, (48 ≤ c ≤ 57)%N) (uint_str d).
Proof. induction d; cbn [uint_str]; constructor; done || lia. Qed.

Lemma uint_str_value (d : Decimal.uint) :
  ∀ acc,
  foldl (λ acc d, 10 * acc + N.to_nat (d - 48)) acc (uint_str d)
    = Nat.of_uint_acc d acc.
Proof.
  induction d; intros acc; cbn [uint_str foldl Nat.of_uint_acc];
    [done|rewrite IHd, Nat.tail_mul_spec; f_equal; cbn; lia..].
Qed.

Lemma uint_str_no_leading_zero (d : Decimal.uint) :
  Decimal.unorm d = d →
  uint_str d = [48%N] ∨ head (uint_str d) ≠ Some 48%N.
Proof.
  destruct d as [|d| | | | | | | | |]; cbn [uint_str head];
    try (by right).
  intros H. left. unfold Decimal.unorm in H. cbn [Decimal.nzhead] in H.
  destruct (Decimal.nzhead d) eqn:Hd.
  1: by injection H as <-.
  1: by destruct (DecimalFacts.nzhead_nonzero d _ Hd).
  all: discriminate H.
Qed.

(** [f"{n}"] is the decimal numeral of [n]. *)
Lemma str_of_int_is_decimal (n : nat) : is_decimal (str_of_int n) n.
Proof.
  assert (Decimal.unorm (Nat.to_uint n) = Nat.to_uint n) as Hnorm.
  { rewrite <- (DecimalNat.Unsigned.of_to n) at 2.
    by rewrite DecimalNat.Unsigned.to_of. }
  unfold is_decimal, str_of_int. split_and!.
  - pose proof (DecimalFacts.unorm_nonnil (Nat.to_uint n)) as Hnil.
    rewrite Hnorm in Hnil. by destruct (Nat.to_uint n).
  - apply uint_str_digits.
  - unfold digits_value. rewrite uint_str_value.
    apply DecimalNat.Unsigned.of_to.
  - by apply uint_str_no_leading_zero.
Qed.

(** ** [split_text] *)

Local Ltac run_split Hm Henc :=
  unfold split_text, dict_get, str_encode; rewrite Hm, Henc;
  cbn [of_option mbind result_bind].

(** A text longer than the budget goes through the loop, which raises
    nothing: [split_text] returns one labelled payload per round, each
    decoded from the window the loop settled on. *)
Lemma split_text_long (self : TextToQRCode) (text bs : list N) (m : nat) :
  MAX_BYTES_PER_QR !! error_correction_level self = Some m →
  Utf8.encode text = Some bs →
  m < length bs →
  let n := ceil_div (length bs) m in
  1 < n ∧
  ∃ payloads,
    split_text self text = Ok (zip_with (labelled n) (seq 0 n) payloads) ∧
    Forall2 (window_ok bs m) (split_windows bs m n 0) payloads.
Proof.
  intros Hm Henc Hlen n. pose proof (budget_ge_4 _ _ Hm) as H4.
  assert (1 < n) as Hn.
  { pose proof (ceil_div_upper (length bs) m ltac:(lia)). fold n in H. nia. }
  split; [done|].
  destruct (split_loop_ok bs m n (seq 0 n) H4 0 []) as (ps & Hps & Hwin).
  { rewrite drop_0. rewrite (Utf8Facts.decode_encode _ _ Henc). eauto. }
  { intros j Hj. rewrite length_seq in Hj. cbn.
    apply ceil_div_lower; [lia..|done]. }
  exists ps. rewrite length_seq in Hwin. split; [|done].
  run_split Hm Henc. destruct (Nat.leb_spec (length bs) m); [lia|].
  exact Hps.
Qed.

(** A text within the budget takes the early return. *)
Lemma short_text_unsplit (self : TextToQRCode) (text bs : list N) (m : nat) :
  MAX_BYTES_PER_QR !! error_correction_level self = Some m →
  Utf8.encode text = Some bs →
  length bs ≤ m →
  split_text self text = Ok [text].
Proof.
  intros Hm Henc Hlen. run_split Hm Henc.
  by destruct (Nat.leb_spec (length bs) m); [|lia].
Qed.

(** C4. A text whose UTF-8 byte length is at most the budget of the
    configured level comes back as exactly one segment, the text itself,
    with no marker added. *)
Theorem split_text_short (self : TextToQRCode) (text bs : list N) (m : nat) :
  MAX_BYTES_PER_QR !! error_correction_level self = Some m →
  Utf8.encode text = Some bs →
  length bs ≤ m →
  split_text self text = Ok [text].
Proof.
  intros Hm Henc Hlen. unfold split_text, dict_get, str_encode.
  rewrite Hm, Henc. cbn [of_option mbind result_bind].
  destruct (Nat.leb_spec (length bs) m) as [_|Hgt]; [reflexivity|].
  exfalso. lia.
Qed.

(** The segments of a long text: one per round, each behind its marker. *)
Lemma long_text_segments
    (self : TextToQRCode) (text bs : list N) (m : nat) :
  MAX_BYTES_PER_QR !! error_correction_level self = Some m →
  Utf8.encode text = Some bs →
  m < length bs →
  ∃ segs,
    split_text self text = Ok segs ∧
    ceil_div (length bs) m = length segs ∧
    ∀ i seg, segs !! i = Some seg →
      ∃ payload, seg = part_prefix (i + 1) (length segs) ++ payload.
Proof.
  intros Hm Henc Hlen.
  destruct (split_text_long self text bs m Hm Henc Hlen)
    as (Hn & ps & Hsplit & Hwin).
  apply Forall2_length in Hwin. rewrite split_windows_length in Hwin.
  set (n := ceil_div (length bs) m) in *.
  assert (length (zip_with (labelled n) (seq 0 n) ps) = n) as Hl.
  { rewrite length_zip_with, length_seq. lia. }
  eexists. split; [exact Hsplit|]. split; [done|].
  intros i seg Hi. rewrite Hl.
  apply lookup_zip_with_Some in Hi as (j & p & -> & Hj & Hp).
  apply lookup_seq in Hj as [-> _]. exists p.
  unfold labelled. by destruct (Nat.ltb_spec 1 n); [|lia].
Qed.

(** C3. A text whose UTF-8 byte length exceeds the budget is returned as
    exactly [ceil(byte length / budget)] segments: the number [n] of
    segments is the one with [(n - 1) * budget < byte length <= n * budget].
    The segment at 0-based index [i] starts with the marker ["[i+1/n]\n"]:
    the character '[' (91), the decimal numeral of [i + 1], the character
    '/' (47), the decimal numeral of [n], the character ']' (93) and a line
    feed (10). *)
Theorem split_text_count_and_markers
    (self : TextToQRCode) (text bs : list N) (m : nat) :
  MAX_BYTES_PER_QR !! error_correction_level self = Some m →
  Utf8.encode text = Some bs →
  m < length bs →
  ∃ segs,
    split_text self text = Ok segs ∧
    length segs = ceil_div (length bs) m ∧
    (length segs - 1) * m < length bs ≤ length segs * m ∧
    ∀ i seg, segs !! i = Some seg →
      ∃ di dn payload,
        is_decimal di (i + 1) ∧
        is_decimal dn (length segs) ∧
        seg = [91%N] ++ di ++ [47%N] ++ dn ++ [93%N; 10%N] ++ payload.
Proof.
  intros Hm Henc Hlen. pose proof (budget_ge_4 _ _ Hm) as H4.
  destruct (long_text_segments self text bs m Hm Henc Hlen)
    as (segs & Hsplit & Hcount & Hmarks).
  exists segs. split_and!; [done|done| | |].
  - destruct (length segs) as [|j] eqn:Hj.
    + pose proof (ceil_div_upper (length bs) m ltac:(lia)). lia.
    + replace (S j - 1) with j by lia.
      apply ceil_div_lower; [lia..|done].
  - rewrite <- Hcount. apply ceil_div_upper. lia.
  - intros i seg Hi. destruct (Hmarks i seg Hi) as [payload ->].
    exists (str_of_int (i + 1)), (str_of_int (length segs)), payload.
    split_and!; [apply str_of_int_is_decimal..|].
    unfold part_prefix. rewrite <- !app_assoc. reflexivity.
Qed.

(** C6. For a text longer than the budget, every byte window the loop
    settles on decodes as complete UTF-8 (the final [decode] never raises,
    so no character is cut), every payload is non-empty, and the segments
    are these payloads behind their markers. *)
Theorem split_text_windows_decode
    (self : TextToQRCode) (text bs : list N) (m : nat) :
  MAX_BYTES_PER_QR !! error_correction_level self = Some m →
  Utf8.encode text = Some bs →
  m < length bs →
  let n := ceil_div (length bs) m in
  ∃ payloads,
    split_text self text = Ok (zip_with (labelled n) (seq 0 n) payloads) ∧
    Forall2
      (λ w p, Utf8.decode (slice bs w.1 w.2) = Some p ∧ p ≠ [] ∧ w.1 < w.2)
      (split_windows bs m n 0) payloads.
Proof.
  intros Hm Henc Hlen n.
  destruct (split_text_long self text bs m Hm Henc Hlen)
    as (_ & ps & Hsplit & Hwin).
  exists ps. split; [done|].
  eapply Forall2_impl; [exact Hwin|].
  intros w p (? & ? & ? & _). done.
Qed.

(** *** Byte lengths of segments *)


(** ASCII text is its own encoding, one byte per character. *)
Lemma encode_ascii (t : list N) :
  Forall (λ c, (c < 128)%N) t → Utf8.encode t = Some t.
Proof.
  induction 1 as [|c t Hc _ IH]; [done|]. cbn [Utf8.encode].
  rewrite IH. unfold Utf8.encode_char.
  by destruct (N.ltb_spec c 128); [|lia].
Qed.






(** C1, at a failing input.  At level H the 2400-byte text
    [straddling_text] is split into [ceil(2400/1200) = 2] parts; the first
    window is cut back by one byte so as not to split the two-byte
    character, the second window still holds at most 1200 bytes, and the
    loop ends with one byte unread: the payloads put together are the text
    without its last character. *)
Theorem split_text_loses_tail :
  ∃ bs segs,
    Utf8.encode straddling_text = Some bs ∧
    length bs = 2400 ∧
    split_text (converter "H") straddling_text = Ok segs ∧
    length segs = 2 ∧
    reassemble segs
      = Some (take (length straddling_text - 1) straddling_text) ∧
    reassemble segs ≠ Some straddling_text.
Proof.
  eexists _, _. split; [vm_compute; reflexivity|].
  split; [vm_compute; reflexivity|].
  split; [vm_compute; reflexivity|].
  split; [vm_compute; reflexivity|].
  split; [vm_compute; reflexivity|].
  intros H. apply (f_equal (fmap length)) in H. by vm_compute in H.
Qed.

(** *** What the loop keeps

    The windows are consecutive and start at byte 0, so the payloads put
    together are always the beginning of the text: the loop can leave a
    tail unread, it never reorders or alters what it reads. *)

Lemma strip_app (pre p : list N) : strip pre (pre ++ p) = Some p.
Proof.
  induction pre as [|c pre IH]; cbn [strip app]; [by destruct p|].
  by rewrite N.eqb_refl.
Qed.

Lemma strip_marker_labelled (n i : nat) (p : list N) :
  1 < n → strip_marker n i (labelled n i p) = Some p.
Proof.
  intros Hn. unfold strip_marker, labelled.
  destruct (Nat.ltb_spec 1 n); [|lia]. apply strip_app.
Qed.

Lemma payloads_of_labelled (n : nat) (ps : list (list N)) :
  1 < n → ∀ k,
  mapM id (imap (λ i, strip_marker n (k + i))
             (zip_with (labelled n) (seq k (length ps)) ps)) = Some ps.
Proof.
  intros Hn. induction ps as [|p ps IH]; intros k; [done|].
  cbn [length seq zip_with]. rewrite imap_cons. cbn [mapM].
  replace (k + 0) with k by lia.
  rewrite strip_marker_labelled by done. cbn [id mbind option_bind].
  rewrite (imap_ext _ (λ i, strip_marker n (S k + i))).
  - by rewrite IH.
  - intros i x _. unfold compose.
    by replace (k + S i) with (S k + i) by lia.
Qed.

Lemma reassemble_labelled (n : nat) (ps : list (list N)) :
  1 < n → length ps = n →
  reassemble (zip_with (labelled n) (seq 0 n) ps) = Some (concat ps).
Proof.
  intros Hn Hl. subst n. unfold reassemble.
  rewrite length_zip_with, length_seq, Nat.min_id.
  transitivity (@List.concat N <$> Some ps); [f_equal|done].
  exact (payloads_of_labelled (length ps) ps Hn 0).
Qed.

Lemma windows_read_prefix (bs : list N) (m k : nat) :
  ∀ (start : nat) (ps : list (list N)) (u : list N),
  Forall2 (window_ok bs m) (split_windows bs m k start) ps →
  Utf8.decode (drop start bs) = Some u →
  ∃ rest, u = concat ps ++ rest.
Proof.
  induction k as [|k IH]; intros start ps u Hwin Hu;
    cbn [split_windows] in Hwin.
  { apply Forall2_nil_inv_l in Hwin as ->. by exists u. }
  set (e := adjust_end bs start (min (start + m) (length bs))) in Hwin.
  apply Forall2_cons_inv_l in Hwin as (p & ps' & Hp & Hwin & ->).
  destruct Hp as (Hp & _ & Hlt & _). cbn [fst snd] in Hp, Hlt.
  rewrite (slice_split bs start e ltac:(lia)) in Hu.
  rewrite (Utf8Facts.decode_app _ _ _ Hp) in Hu.
  destruct (Utf8.decode (drop e bs)) as [u'|] eqn:Hu'; [|done].
  injection Hu as <-.
  destruct (IH _ _ _ Hwin Hu') as [rest ->].
  exists rest. cbn [concat]. by rewrite app_assoc.
Qed.

(** For a text longer than the budget the payloads of the segments,
    markers stripped, concatenate to a prefix of the text. *)
Lemma split_text_payloads_prefix
    (self : TextToQRCode) (text bs : list N) (m : nat) :
  MAX_BYTES_PER_QR !! error_correction_level self = Some m →
  Utf8.encode text = Some bs →
  m < length bs →
  ∃ segs kept,
    split_text self text = Ok segs ∧
    reassemble segs = Some kept ∧
    kept `prefix_of` text.
Proof.
  intros Hm Henc Hlen.
  destruct (split_text_long self text bs m Hm Henc Hlen)
    as (Hn & ps & Hsplit & Hwin).
  pose proof (Forall2_length _ _ _ Hwin) as Hl.
  rewrite split_windows_length in Hl.
  destruct (windows_read_prefix bs m _ 0 ps text Hwin) as [rest Hrest].
  { rewrite drop_0. by apply Utf8Facts.decode_encode. }
  eexists _, (concat ps). split; [exact Hsplit|]. split.
  - by apply reassemble_labelled.
  - by exists rest.
Qed.

(** ** [get_text_info] and the capacity lookup *)

(** C10. The empty string takes the single-segment branch of [split_text]
    under every defined level and comes back as one empty segment, while
    [get_text_info] reports [ceil(0 / budget) = 0] QR codes for it. *)
Theorem empty_text_one_segment_zero_count (self : TextToQRCode) (m : nat) :
  MAX_BYTES_PER_QR !! error_correction_level self = Some m →
  split_text self [] = Ok [[]] ∧
  ∃ info, get_text_info self [] = Ok info ∧ num_qrcodes info = 0.
Proof.
  intros Hm. split.
  { apply (short_text_unsplit self [] [] m); [done|done|cbn; lia]. }
  eexists. split.
  - unfold get_text_info, dict_get, str_encode. rewrite Hm. reflexivity.
  - cbn [num_qrcodes length]. unfold ceil_div.
    rewrite Nat.Div0.div_0_l, Nat.Div0.mod_0_l. reflexivity.
Qed.

(** C7. [get_text_info] reports the number of code points, the UTF-8
    byte length, the budget of the level and the ceiling of byte length
    over budget (the least number of budget-sized windows that cover the
    bytes); the budgets are L=2900, M=2300, Q=1600, H=1200; and for
    "Hello, World!" at level M the report is 13, 13, 2300 and 1. *)
Theorem get_text_info_spec :
  (∀ (self : TextToQRCode) (text bs : list N) (m : nat),
     Utf8.encode text = Some bs →
     MAX_BYTES_PER_QR !! error_correction_level self = Some m →
     get_text_info self text =
       Ok {| char_count := length text;
             byte_count := length bs;
             max_bytes_per_qr := m;
             num_qrcodes := ceil_div (length bs) m;
             error_correction := error_correction_level self |} ∧
     length bs ≤ ceil_div (length bs) m * m ∧
     ∀ k, length bs ≤ k * m → ceil_div (length bs) m ≤ k) ∧
  (MAX_BYTES_PER_QR !! "L" = Some 2900 ∧
   MAX_BYTES_PER_QR !! "M" = Some 2300 ∧
   MAX_BYTES_PER_QR !! "Q" = Some 1600 ∧
   MAX_BYTES_PER_QR !! "H" = Some 1200) ∧
  get_text_info (converter "M") (lit "Hello, World!") =
    Ok {| char_count := 13;
          byte_count := 13;
          max_bytes_per_qr := 2300;
          num_qrcodes := 1;
          error_correction := "M" |}.
Proof.
  split_and!; try reflexivity.
  intros self text bs m Henc Hm.
  pose proof (budget_ge_4 _ _ Hm). split_and!.
  - unfold get_text_info, dict_get, str_encode. by rewrite Henc, Hm.
  - apply ceil_div_upper. lia.
  - intros k. apply ceil_div_least. lia.
Qed.

(** C8. The capacity lookup succeeds exactly on the levels L, M, Q and H,
    where it yields the fixed budget; on any other level it raises
    KeyError, so that [split_text] raises KeyError and [get_text_info]
    raises as well (UnicodeEncodeError when the text cannot be encoded,
    which it tries first, KeyError otherwise) and neither returns a
    result.  The lookup is a pure function of the level. *)
Theorem capacity_lookup_defined_levels_only
    (self : TextToQRCode) (text : list N) :
  let level := error_correction_level self in
  (level ∉ ["L"; "M"; "Q"; "H"] →
     dict_get MAX_BYTES_PER_QR level = Raise KeyError ∧
     split_text self text = Raise KeyError ∧
     get_text_info self text =
       Raise (match Utf8.encode text with
              | Some _ => KeyError
              | None => UnicodeEncodeError
              end)) ∧
  (level ∈ ["L"; "M"; "Q"; "H"] →
     ∃ m, dict_get MAX_BYTES_PER_QR level = Ok m ∧
          (level, m) ∈ [("L", 2900); ("M", 2300); ("Q", 1600); ("H", 1200)]).
Proof.
  intros level. split.
  - intros Hl%MAX_BYTES_PER_QR_undefined.
    unfold split_text, get_text_info, dict_get, str_encode. fold level.
    rewrite Hl. split_and!; [done..|]. by destruct (Utf8.encode text).
  - unfold dict_get. rewrite !elem_of_cons, elem_of_nil.
    intros [->|[->|[->|[->|[]]]]]; eexists; (split; [reflexivity|]);
      repeat constructor.
Qed.

(** ** The facade *)

Lemma encode_nil_inv (t : list N) : Utf8.encode t = Some [] → t = [].
Proof.
  intros H%Utf8Facts.decode_encode. cbn in H. by injection H as <-.
Qed.

(** On a non-empty text of at most [m] bytes the ceiling is one. *)
Lemma ceil_div_one (a m : nat) : 0 < a → a ≤ m → ceil_div a m = 1.
Proof.
  intros Ha Hm.
  pose proof (ceil_div_upper a m ltac:(lia)).
  pose proof (ceil_div_least a m 1 ltac:(lia) ltac:(lia)). nia.
Qed.

Section FacadeFacts.

Context {image fs : Type}.
Variable qr_make : qr_constant → Z → Z → list N → result image.
Variable img_save : image → list N → fs → fs * result unit.

(** The images come out paired with the parts they were made from, in
    order, behind what was accumulated before. *)
Lemma images_loop_parts (self : TextToQRCode) (parts : list (list N)) :
  ∀ (acc images : list (image * list N)),
  images_loop qr_make self parts acc = Ok images →
  images.*2 = acc.*2 ++ parts.
Proof.
  induction parts as [|part rest IH]; intros acc images H; cbn in H.
  { injection H as <-. by rewrite app_nil_r. }
  destruct (generate_qrcode qr_make self part) as [img|e]; [|done].
  cbn in H. rewrite (IH _ _ H), fmap_app. cbn. by rewrite <- app_assoc.
Qed.

Lemma images_loop_ok (self : TextToQRCode) (parts : list (list N)) :
  (∀ part, part ∈ parts → is_Ok (generate_qrcode qr_make self part)) →
  ∀ acc, is_Ok (images_loop qr_make self parts acc).
Proof.
  induction parts as [|part rest IH]; intros Hgen acc; cbn.
  { by eexists. }
  destruct (Hgen part) as [img ->]; [constructor|]. cbn.
  apply IH. intros p Hp. apply Hgen. by constructor.
Qed.

(** The paths returned are the accumulated ones followed by the names
    of the remaining indices, in order. *)
Lemma save_loop_paths (self : TextToQRCode) (pre : list N) (n : nat)
    (rest : list (list N)) :
  ∀ (i : nat) (acc : list (list N)) (st st' : fs) (paths : list (list N)),
  save_loop qr_make img_save self pre n i rest acc st = (st', Ok paths) →
  paths = acc ++ ((λ k, part_filename pre k n) <$> seq i (length rest)).
Proof.
  induction rest as [|part rest IH]; intros i acc st st' paths H;
    cbn [save_loop] in H.
  { injection H as _ <-. cbn. by rewrite app_nil_r. }
  destruct (generate_qrcode qr_make self part) as [img|e]; [|done].
  destruct (img_save img (part_filename pre i n) st) as [st1 [[]|e]];
    [|done].
  rewrite (IH _ _ _ _ _ H). cbn [length seq fmap list_fmap].
  by rewrite <- app_assoc.
Qed.

Lemma save_loop_ok (self : TextToQRCode) (pre : list N) (n : nat)
    (rest : list (list N)) :
  (∀ part, part ∈ rest → is_Ok (generate_qrcode qr_make self part)) →
  (∀ img name st, is_Ok (img_save img name st).2) →
  ∀ (i : nat) (acc : list (list N)) (st : fs),
  ∃ st' paths,
    save_loop qr_make img_save self pre n i rest acc st = (st', Ok paths).
Proof.
  intros Hgen Hsave. induction rest as [|part rest IH]; intros i acc st;
    cbn [save_loop].
  { by eexists _, _. }
  destruct (Hgen part) as [img ->]; [constructor|].
  destruct (Hsave img (part_filename pre i n) st) as [[] Hs].
  destruct (img_save img (part_filename pre i n) st) as [st1 r].
  cbn in Hs. subst r. apply IH. intros p Hp. apply Hgen. by constructor.
Qed.

(** C5, as the code has it.  For every non-empty text on which
    [get_text_info] returns, the [num_qrcodes] it reports is the number
    of segments [split_text] returns, and the length of the list of
    [generate_qrcode_images] whenever the encoder accepts every
    segment. *)
Theorem num_qrcodes_matches_segments
    (self : TextToQRCode) (text : list N) (info : TextInfo) :
  text ≠ [] →
  get_text_info self text = Ok info →
  ∃ segs,
    split_text self text = Ok segs ∧
    num_qrcodes info = length segs ∧
    (∀ images, generate_qrcode_images qr_make self text = Ok images →
       length images = num_qrcodes info) ∧
    ((∀ seg, seg ∈ segs → is_Ok (generate_qrcode qr_make self seg)) →
       ∃ images, generate_qrcode_images qr_make self text = Ok images ∧
                 length images = num_qrcodes info).
Proof.
  intros Hne Hinfo. unfold get_text_info, dict_get, str_encode in Hinfo.
  destruct (Utf8.encode text) as [bs|] eqn:Henc; [|done].
  destruct (MAX_BYTES_PER_QR !! error_correction_level self) as [m|] eqn:Hm;
    [|done].
  injection Hinfo as <-. cbn [num_qrcodes].
  assert (0 < length bs) as Hpos.
  { destruct bs; [|cbn; lia]. by apply encode_nil_inv in Henc. }
  assert (∃ segs, split_text self text = Ok segs ∧
                  ceil_div (length bs) m = length segs)
    as (segs & Hsplit & Hcount).
  { destruct (decide (length bs ≤ m)) as [Hshort|Hlong].
    - exists [text]. split; [by eapply short_text_unsplit|].
      by apply ceil_div_one.
    - destruct (long_text_segments self text bs m Hm Henc
        ltac:(lia)) as (segs & ? & ? & _). by exists segs. }
  exists segs. split_and!; [done..| |].
  - intros images Himg. unfold generate_qrcode_images in Himg.
    rewrite Hsplit in Himg. cbn in Himg.
    apply images_loop_parts in Himg. apply (f_equal length) in Himg.
    rewrite !length_fmap in Himg. cbn in Himg. lia.
  - intros Hgen. unfold generate_qrcode_images. rewrite Hsplit. cbn.
    destruct (images_loop_ok self segs Hgen []) as [images Himg].
    exists images. split; [done|].
    apply images_loop_parts in Himg. apply (f_equal length) in Himg.
    rewrite !length_fmap in Himg. cbn in Himg. lia.
Qed.

(** C9. [text_to_qrcode] names the files by segment index, in order:
    whatever it returns is the list of the names of indices [0 .. n-1],
    one per segment, and it does return that list when encoder and file
    system accept every segment.  For a single segment the name is the
    prefix followed by ".png" (46, 112, 110, 103); for several, the name
    of the segment at index [i] is the prefix, '_' (95), the decimal
    numeral of [i + 1], "_of_" (95, 111, 102, 95), the decimal numeral of
    [n], and ".png". *)
Theorem text_to_qrcode_paths
    (self : TextToQRCode) (text output_prefix : list N)
    (segs : list (list N)) :
  split_text self text = Ok segs →
  let n := length segs in
  let names := (λ i, part_filename output_prefix i n) <$> seq 0 n in
  (∀ st st' paths,
     text_to_qrcode qr_make img_save self text output_prefix st
       = (st', Ok paths) →
     paths = names) ∧
  ((∀ seg, seg ∈ segs → is_Ok (generate_qrcode qr_make self seg)) →
   (∀ img name st, is_Ok (img_save img name st).2) →
   ∀ st, ∃ st',
     text_to_qrcode qr_make img_save self text output_prefix st
       = (st', Ok names)) ∧
  length names = n ∧
  (n = 1 → names = [output_prefix ++ [46%N; 112%N; 110%N; 103%N]]) ∧
  (1 < n → ∀ i, i < n →
     ∃ di dn,
       is_decimal di (i + 1) ∧
       is_decimal dn n ∧
       names !! i =
         Some (output_prefix ++ [95%N] ++ di ++ [95%N; 111%N; 102%N; 95%N]
                 ++ dn ++ [46%N; 112%N; 110%N; 103%N])).
Proof.
  intros Hsplit n names. split_and!.
  - intros st st' paths H. unfold text_to_qrcode in H.
    rewrite Hsplit in H. by apply save_loop_paths in H.
  - intros Hgen Hsave st. unfold text_to_qrcode. rewrite Hsplit.
    destruct (save_loop_ok self output_prefix n segs Hgen Hsave 0 [] st)
      as (st' & paths & H).
    exists st'. unfold n in H. rewrite H.
    by apply save_loop_paths in H as ->.
  - unfold names. by rewrite length_fmap, length_seq.
  - intros Hn. unfold names. rewrite Hn. reflexivity.
  - intros Hn i Hi.
    exists (str_of_int (i + 1)), (str_of_int n).
    split_and!; [apply str_of_int_is_decimal..|].
    unfold names. rewrite list_lookup_fmap, lookup_seq_lt by done.
    cbn [fmap option_fmap option_map plus]. unfold part_filename.
    destruct (Nat.ltb_spec 1 n); [|lia]. reflexivity.
Qed.

End FacadeFacts.

(** C5, as stated, fails on the empty text: at level M [get_text_info]
    reports 0 QR codes for it while [split_text] returns one (empty)
    segment. *)
Lemma num_qrcodes_differs_on_empty_text :
  ¬ ∀ (self : TextToQRCode) (text : list N) (info : TextInfo)
      (segs : list (list N)),
      get_text_info self text = Ok info →
      split_text self text = Ok segs →
      num_qrcodes info = length segs.
Proof.
  intros H.
  specialize (H (converter "M") [] _ [[]] eq_refl eq_refl). discriminate H.
Qed.

(** ** The theorems at concrete inputs *)

Lemma split_text_short_witness :
  MAX_BYTES_PER_QR !! "M" = Some 2300 ∧
  Utf8.encode (lit "Hello, World!") = Some (lit "Hello, World!") ∧
  length (lit "Hello, World!") ≤ 2300 ∧
  split_text (converter "M") (lit "Hello, World!")
    = Ok [lit "Hello, World!"].
Proof.
  assert (MAX_BYTES_PER_QR !! "M" = Some 2300) as h1 by reflexivity.
  assert (Utf8.encode (lit "Hello, World!") = Some (lit "Hello, World!"))
    as h2 by reflexivity.
  assert (length (lit "Hello, World!") ≤ 2300) as h3
    by (apply Nat.leb_le; reflexivity).
  exact (conj h1 (conj h2 (conj h3
    (split_text_short (converter "M") _ _ _ h1 h2 h3)))).
Defined.

Lemma split_text_count_and_markers_witness :
  MAX_BYTES_PER_QR !! "H" = Some 1200 ∧
  Utf8.encode one_over_text = Some one_over_text ∧
  1200 < length one_over_text ∧
  split_text (converter "H") one_over_text
    = Ok [[91%N; 49%N; 47%N; 50%N; 93%N; 10%N] ++ replicate 1200 97%N;
          [91%N; 50%N; 47%N; 50%N; 93%N; 10%N; 97%N]] ∧
  ∃ segs,
    split_text (converter "H") one_over_text = Ok segs ∧
    length segs = ceil_div (length one_over_text) 1200 ∧
    (length segs - 1) * 1200 < length one_over_text ≤ length segs * 1200 ∧
    ∀ i seg, segs !! i = Some seg →
      ∃ di dn payload,
        is_decimal di (i + 1) ∧
        is_decimal dn (length segs) ∧
        seg = [91%N] ++ di ++ [47%N] ++ dn ++ [93%N; 10%N] ++ payload.
Proof.
  assert (MAX_BYTES_PER_QR !! "H" = Some 1200) as h1 by reflexivity.
  assert (Utf8.encode one_over_text = Some one_over_text) as h2
    by (vm_compute; reflexivity).
  assert (1200 < length one_over_text) as h3
    by (apply Nat.ltb_lt; vm_compute; reflexivity).
  assert (split_text (converter "H") one_over_text
    = Ok [[91%N; 49%N; 47%N; 50%N; 93%N; 10%N] ++ replicate 1200 97%N;
          [91%N; 50%N; 47%N; 50%N; 93%N; 10%N; 97%N]]) as h4
    by (vm_compute; reflexivity).
  exact (conj h1 (conj h2 (conj h3 (conj h4
    (split_text_count_and_markers (converter "H") _ _ _ h1 h2 h3))))).
Defined.

Lemma split_text_windows_decode_witness :
  let bs := replicate 1199 97%N ++ [195%N; 169%N] ++ replicate 1199 97%N in
  MAX_BYTES_PER_QR !! "H" = Some 1200 ∧
  Utf8.encode straddling_text = Some bs ∧
  1200 < length bs ∧
  ∃ payloads,
    split_text (converter "H") straddling_text
      = Ok (zip_with (labelled (ceil_div (length bs) 1200))
              (seq 0 (ceil_div (length bs) 1200)) payloads) ∧
    Forall2
      (λ w p, Utf8.decode (slice bs w.1 w.2) = Some p ∧ p ≠ [] ∧ w.1 < w.2)
      (split_windows bs 1200 (ceil_div (length bs) 1200) 0) payloads.
Proof.
  intros bs.
  assert (MAX_BYTES_PER_QR !! "H" = Some 1200) as h1 by reflexivity.
  assert (Utf8.encode straddling_text = Some bs) as h2
    by (vm_compute; reflexivity).
  assert (1200 < length bs) as h3
    by (apply Nat.ltb_lt; vm_compute; reflexivity).
  exact (conj h1 (conj h2 (conj h3
    (split_text_windows_decode (converter "H") _ _ _ h1 h2 h3)))).
Defined.


Lemma empty_text_one_segment_zero_count_witness :
  MAX_BYTES_PER_QR !! "M" = Some 2300 ∧
  split_text (converter "M") [] = Ok [[]] ∧
  ∃ info, get_text_info (converter "M") [] = Ok info ∧ num_qrcodes info = 0.
Proof.
  assert (MAX_BYTES_PER_QR !! "M" = Some 2300) as h1 by reflexivity.
  exact (conj h1 (empty_text_one_segment_zero_count (converter "M") _ h1)).
Defined.

Lemma get_text_info_spec_witness :
  let text := [20320%N; 22909%N] in
  let bs := [228%N; 189%N; 160%N; 229%N; 165%N; 189%N] in
  Utf8.encode text = Some bs ∧
  MAX_BYTES_PER_QR !! "Q" = Some 1600 ∧
  get_text_info (converter "Q") text =
    Ok {| char_count := 2;
          byte_count := 6;
          max_bytes_per_qr := 1600;
          num_qrcodes := 1;
          error_correction := "Q" |}.
Proof.
  intros text bs.
  assert (Utf8.encode text = Some bs) as h1 by reflexivity.
  assert (MAX_BYTES_PER_QR !! "Q" = Some 1600) as h2 by reflexivity.
  exact (conj h1 (conj h2
    (proj1 (proj1 get_text_info_spec (converter "Q") text bs 1600 h1 h2)))).
Defined.

Lemma capacity_lookup_defined_levels_only_witness :
  ("X" ∉ ["L"; "M"; "Q"; "H"]) ∧
  ("Q" ∈ ["L"; "M"; "Q"; "H"]) ∧
  split_text (converter "X") (lit "abc") = Raise KeyError ∧
  get_text_info (converter "X") (lit "abc") = Raise KeyError ∧
  ∃ m, dict_get MAX_BYTES_PER_QR "Q" = Ok m ∧
       ("Q", m) ∈ [("L", 2900); ("M", 2300); ("Q", 1600); ("H", 1200)].
Proof.
  assert ("X" ∉ ["L"; "M"; "Q"; "H"]) as h1
    by (apply (bool_decide_unpack _); vm_compute; exact I).
  assert ("Q" ∈ ["L"; "M"; "Q"; "H"]) as h2
    by (apply (bool_decide_unpack _); vm_compute; exact I).
  pose proof (proj1 (capacity_lookup_defined_levels_only
    (converter "X") (lit "abc")) h1) as (_ & h3 & h4).
  exact (conj h1 (conj h2 (conj h3 (conj h4
    (proj2 (capacity_lookup_defined_levels_only (converter "Q") [])
       h2))))).
Defined.

Lemma num_qrcodes_matches_segments_witness :
  let text := lit "Hello, World!" in
  let info := {| char_count := 13; byte_count := 13;
                 max_bytes_per_qr := 2300; num_qrcodes := 1;
                 error_correction := "M" |} in
  text ≠ [] ∧
  get_text_info (converter "M") text = Ok info ∧
  ∃ segs,
    split_text (converter "M") text = Ok segs ∧
    num_qrcodes info = length segs ∧
    (∀ images,
       generate_qrcode_images echo_encoder (converter "M") text = Ok images →
       length images = num_qrcodes info) ∧
    ((∀ seg, seg ∈ segs →
        is_Ok (generate_qrcode echo_encoder (converter "M") seg)) →
     ∃ images,
       generate_qrcode_images echo_encoder (converter "M") text = Ok images ∧
       length images = num_qrcodes info).
Proof.
  intros text info.
  assert (text ≠ []) as h1 by discriminate.
  assert (get_text_info (converter "M") text = Ok info) as h2
    by reflexivity.
  exact (conj h1 (conj h2
    (num_qrcodes_matches_segments echo_encoder (converter "M") text info
       h1 h2))).
Defined.

Lemma text_to_qrcode_paths_witness :
  let pre := [113%N; 114%N; 99%N; 111%N; 100%N; 101%N] in
  let first := [91%N; 49%N; 47%N; 50%N; 93%N; 10%N] ++ replicate 1200 97%N in
  let second := [91%N; 50%N; 47%N; 50%N; 93%N; 10%N; 97%N] in
  let name1 := pre ++ [95%N; 49%N; 95%N; 111%N; 102%N; 95%N; 50%N;
                       46%N; 112%N; 110%N; 103%N] in
  let name2 := pre ++ [95%N; 50%N; 95%N; 111%N; 102%N; 95%N; 50%N;
                       46%N; 112%N; 110%N; 103%N] in
  split_text (converter "H") one_over_text = Ok [first; second] ∧
  text_to_qrcode echo_encoder log_save (converter "H") one_over_text pre []
    = ([(name1, first); (name2, second)], Ok [name1; name2]) ∧
  (∀ st st' paths,
     text_to_qrcode echo_encoder log_save (converter "H") one_over_text
       pre st = (st', Ok paths) →
     paths = [name1; name2]) ∧
  (1 < 2 → ∀ i, i < 2 →
     ∃ di dn,
       is_decimal di (i + 1) ∧
       is_decimal dn 2 ∧
       [name1; name2] !! i =
         Some (pre ++ [95%N] ++ di ++ [95%N; 111%N; 102%N; 95%N]
                 ++ dn ++ [46%N; 112%N; 110%N; 103%N])).
Proof.
  intros pre first second name1 name2.
  assert (split_text (converter "H") one_over_text = Ok [first; second])
    as h1 by (vm_compute; reflexivity).
  assert (text_to_qrcode echo_encoder log_save (converter "H") one_over_text
            pre []
          = ([(name1, first); (name2, second)], Ok [name1; name2])) as h2
    by (vm_compute; reflexivity).
  pose proof (text_to_qrcode_paths echo_encoder log_save (converter "H")
    one_over_text pre [first; second] h1) as (h3 & _ & _ & _ & h4).
  exact (conj h1 (conj h2 (conj h3 h4))).
Defined.

(** * Further properties of the converter *)

(** ** How much a window is cut back *)

Section Coverage.
Import Utf8 Utf8Facts.

Local Ltac leb_case :=
  match goal with
  | |- context [Nat.leb ?a ?b] => destruct (Nat.leb_spec a b)
  end.

(** In well-formed UTF-8 a character boundary lies at most three bytes
    before any position. *)
Lemma boundary_within_3 (bs : list N) :
  is_Some (decode bs) → ∀ e, e ≤ length bs →
  ∃ e', e' ≤ e ∧ e < e' + 4 ∧ is_Some (decode (take e' bs)).
Proof.
  remember (length bs) as n eqn:Hn. revert bs Hn.
  induction n as [n IH] using lt_wf_ind. intros bs Hn [u Hu] e He.
  destruct (decide (e < 4)) as [Hsmall|Hbig].
  { exists 0. split_and!; [lia..|]. rewrite take_0. by eexists. }
  destruct (decode_first_char bs u Hu) as (k & Hk & Hkl & Hkd).
  { intros ->. cbn in Hn. lia. }
  destruct Hkd as [u1 Hu1].
  assert (is_Some (decode (drop k bs))) as Hrest.
  { apply (decode_app_is_Some (take k bs)); [eauto|].
    rewrite take_drop. eauto. }
  destruct (IH (length (drop k bs)) ltac:(rewrite length_drop; lia)
              (drop k bs) eq_refl Hrest (e - k))
    as (e' & He1 & He2 & [u2 Hu2]).
  { rewrite length_drop. lia. }
  exists (k + e'). split_and!; [lia..|].
  rewrite <- take_take_drop, (decode_app _ _ _ Hu1), Hu2. by eexists.
Qed.

Lemma adjust_end_hit (bs : list N) (s e : nat) :
  is_Some (decode (slice bs s e)) → adjust_end bs s e = e.
Proof.
  intros [u Hu]. destruct e; cbn [adjust_end]; rewrite Hu;
    by destruct (length bs <=? _).
Qed.

(** The loop gives up at most three bytes of a candidate window. *)
Lemma adjust_end_within_3 (bs : list N) (s e : nat) :
  is_Some (decode (drop s bs)) → s ≤ e → e ≤ length bs →
  e < adjust_end bs s e + 4.
Proof.
  intros Hdec Hs He.
  destruct (decide (e = length bs)) as [->|Hne].
  { rewrite adjust_end_full by done. lia. }
  destruct (boundary_within_3 (drop s bs) Hdec (e - s))
    as (e' & He1 & He2 & Hd).
  { rewrite length_drop. lia. }
  assert (s + e' ≤ adjust_end bs s e); [|lia].
  apply adjust_end_ge; [lia..|].
  unfold slice. by replace (s + e' - s) with e' by lia.
Qed.

(** Every window but those that may reach the end of the bytes is at most
    three bytes short of the budget. *)
Lemma windows_nearly_full (bs : list N) (m : nat) :
  4 ≤ m → ∀ k start,
  is_Some (decode (drop start bs)) →
  start + k * m < length bs →
  Forall (λ w, w.1 + m ≤ w.2 + 3 ∧ w.2 ≤ w.1 + m)
    (split_windows bs m k start).
Proof.
  intros Hm. induction k as [|k IH]; intros start Hdec Hroom;
    cbn [split_windows]; [constructor|].
  destruct (window_step bs m start Hm ltac:(lia) Hdec)
    as [(p & _ & _ & _ & Hle & _) Hnext].
  cbn [fst snd] in Hle.
  replace (min (start + m) (length bs)) with (start + m) in * by lia.
  pose proof (adjust_end_within_3 bs start (start + m) Hdec
    ltac:(lia) ltac:(lia)).
  constructor; [cbn [fst snd]; lia|]. apply IH; [done|lia].
Qed.

Lemma take_split_windows (bs : list N) (m j : nat) :
  ∀ k start, j ≤ k →
  take j (split_windows bs m k start) = split_windows bs m j start.
Proof.
  induction j as [|j IH]; intros k start Hj; [by rewrite take_0|].
  destruct k as [|k]; [lia|]. cbn [split_windows take].
  f_equal. apply IH. lia.
Qed.

Lemma adjust_end_ge_start (bs : list N) (s e : nat) :
  s ≤ e → s ≤ adjust_end bs s e.
Proof.
  intros Hs. destruct (decide (e < length bs)) as [Hlt|Hge].
  - apply adjust_end_ge; [done..|].
    unfold slice. rewrite Nat.sub_diag, take_0. by eexists.
  - rewrite adjust_end_full by lia. done.
Qed.

(** The loop only moves forward, and never past the end of the bytes. *)
Lemma final_end_bounds (bs : list N) (m k : nat) :
  ∀ start, start ≤ length bs →
  start ≤ final_end bs m k start ≤ length bs.
Proof.
  induction k as [|k IH]; intros start Hs; cbn [final_end]; [lia|].
  pose proof (adjust_end_le bs start (min (start + m) (length bs))).
  pose proof (adjust_end_ge_start bs start (min (start + m) (length bs))
    ltac:(lia)).
  specialize (IH (adjust_end bs start (min (start + m) (length bs)))
    ltac:(lia)). lia.
Qed.

(** After [k] rounds the loop has either reached the end of the bytes or
    read all but three bytes per round of what the budget allows. *)
Lemma final_end_covers (bs : list N) (m : nat) :
  4 ≤ m → ∀ k start,
  is_Some (decode (drop start bs)) → start ≤ length bs →
  final_end bs m k start = length bs ∨
  start + k * m ≤ final_end bs m k start + 3 * k.
Proof.
  intros Hm. induction k as [|k IH]; intros start Hdec Hs;
    cbn [final_end]; [lia|].
  set (e0 := min (start + m) (length bs)).
  pose proof (adjust_end_le bs start e0) as Hle.
  pose proof (adjust_end_ge_start bs start e0 ltac:(lia)) as Hge.
  pose proof (adjust_end_within_3 bs start e0 Hdec ltac:(lia) ltac:(lia))
    as Hcut.
  set (e := adjust_end bs start e0) in *.
  pose proof (final_end_bounds bs m k e ltac:(lia)) as Hb.
  assert (is_Some (decode (drop e bs))) as Hnext.
  { destruct (decide (start < length bs)) as [Hlt|Hnlt].
    - apply (window_step bs m start Hm Hlt Hdec).
    - rewrite drop_ge by lia. by eexists. }
  destruct (IH e Hnext ltac:(lia)) as [Hfull|Hcov]; [by left|].
  destruct (decide (length bs ≤ start + m)) as [Hend|Hmid].
  - left. assert (e = length bs) as Ee; [|lia].
    unfold e. rewrite adjust_end_full; unfold e0; lia.
  - right. rewrite Nat.mul_succ_l. lia.
Qed.

End Coverage.

(** ** What [split_text] returns, and when *)

Section SplitMore.
Import Utf8 Utf8Facts.

Lemma windows_read (bs : list N) (m k : nat) :
  ∀ (start : nat) (ps : list (list N)) (u : list N),
  Forall2 (window_ok bs m) (split_windows bs m k start) ps →
  decode (drop start bs) = Some u →
  ∃ rest, u = concat ps ++ rest ∧
          decode (drop (final_end bs m k start) bs) = Some rest.
Proof.
  induction k as [|k IH]; intros start ps u Hwin Hu;
    cbn [split_windows final_end] in *.
  { apply Forall2_nil_inv_l in Hwin as ->. by exists u. }
  set (e := adjust_end bs start (min (start + m) (length bs))) in *.
  apply Forall2_cons_inv_l in Hwin as (p & ps' & Hp & Hwin & ->).
  destruct Hp as (Hp & _ & Hlt & _). cbn [fst snd] in Hp, Hlt.
  rewrite (slice_split bs start e ltac:(lia)) in Hu.
  rewrite (decode_app _ _ _ Hp) in Hu.
  destruct (decode (drop e bs)) as [u'|] eqn:Hu'; [|done].
  injection Hu as <-.
  destruct (IH _ _ _ Hwin Hu') as (rest & -> & Hrest).
  exists rest. cbn [concat]. by rewrite app_assoc.
Qed.

Lemma decode_ascii (bs : list N) :
  Forall (λ c, (c < 128)%N) bs → decode bs = Some bs.
Proof.
  induction 1 as [|b bs Hb _ IH]; [done|]. cbn [decode]. rewrite IH.
  by destruct (N.ltb_spec b 128); [|lia].
Qed.

Lemma final_end_ascii (bs : list N) (m k : nat) :
  Forall (λ c, (c < 128)%N) bs → ∀ start, start ≤ length bs →
  final_end bs m k start = min (start + k * m) (length bs).
Proof.
  intros Hascii. induction k as [|k IH]; intros start Hs;
    cbn [final_end]; [lia|].
  rewrite adjust_end_hit.
  - rewrite IH by lia. rewrite Nat.mul_succ_l. lia.
  - rewrite decode_ascii; [by eexists|].
    by apply Forall_take, Forall_drop.
Qed.

Lemma encode_char_length (c : N) (b : list N) :
  encode_char c = Some b → 1 ≤ length b ≤ 4.
Proof.
  unfold encode_char. intros H.
  repeat case_match; try discriminate H; injection H as <-; cbn; lia.
Qed.

Lemma encode_length (t bs : list N) :
  encode t = Some bs → length t ≤ length bs ≤ 4 * length t.
Proof.
  revert bs. induction t as [|c t IH]; intros bs H; cbn [encode] in H.
  { injection H as <-. cbn. lia. }
  destruct (encode_char c) as [b|] eqn:Hc; [|done].
  destruct (encode t) as [bs'|]; [|done]. injection H as <-.
  apply encode_char_length in Hc. specialize (IH _ eq_refl).
  rewrite length_app. cbn [length]. lia.
Qed.

End SplitMore.

(** The payloads of the segments of a long text are the text up to an
    unread tail, and that tail is at most three bytes per segment: what a
    window gives up to end on a character boundary is never made up for by
    a further round. *)
Theorem split_text_loss_bound
    (self : TextToQRCode) (text bs : list N) (m : nat) :
  MAX_BYTES_PER_QR !! error_correction_level self = Some m →
  Utf8.encode text = Some bs →
  m < length bs →
  ∃ segs kept rest rb,
    split_text self text = Ok segs ∧
    reassemble segs = Some kept ∧
    text = kept ++ rest ∧
    Utf8.encode rest = Some rb ∧
    length rb ≤ 3 * length segs.
Proof.
  intros Hm Henc Hlen. pose proof (budget_ge_4 _ _ Hm) as H4.
  destruct (split_text_long self text bs m Hm Henc Hlen)
    as (Hn & ps & Hsplit & Hwin).
  pose proof (Forall2_length _ _ _ Hwin) as Hl.
  rewrite split_windows_length in Hl.
  set (n := ceil_div (length bs) m) in *.
  destruct (windows_read bs m n 0 ps text Hwin) as (rest & Hrest & Hdec).
  { rewrite drop_0. by apply Utf8Facts.decode_encode. }
  exists (zip_with (labelled n) (seq 0 n) ps), (concat ps), rest,
    (drop (final_end bs m n 0) bs).
  split_and!; [done|by apply reassemble_labelled|done| |].
  { by apply Utf8Facts.encode_decode. }
  rewrite length_zip_with, length_seq, length_drop, <- Hl, Nat.min_id.
  pose proof (ceil_div_upper (length bs) m ltac:(lia)) as Hup. fold n in Hup.
  destruct (final_end_covers bs m H4 n 0) as [Hfull|Hcov]; [..|lia|lia].
  - rewrite drop_0, (Utf8Facts.decode_encode _ _ Henc). by eexists.
  - lia.
Qed.

(** A text of ASCII characters only is split without loss: every window
    takes its full budget and the payloads put together are the text. *)
Theorem split_text_ascii_exact
    (self : TextToQRCode) (text : list N) (m : nat) :
  MAX_BYTES_PER_QR !! error_correction_level self = Some m →
  Forall (λ c, (c < 128)%N) text →
  m < length text →
  ∃ segs,
    split_text self text = Ok segs ∧
    length segs = ceil_div (length text) m ∧
    reassemble segs = Some text.
Proof.
  intros Hm Hascii Hlen. pose proof (budget_ge_4 _ _ Hm) as H4.
  pose proof (encode_ascii text Hascii) as Henc.
  destruct (split_text_long self text text m Hm Henc Hlen)
    as (Hn & ps & Hsplit & Hwin).
  pose proof (Forall2_length _ _ _ Hwin) as Hl.
  rewrite split_windows_length in Hl.
  set (n := ceil_div (length text) m) in *.
  destruct (windows_read text m n 0 ps text Hwin) as (rest & Hrest & Hdec).
  { rewrite drop_0. by apply decode_ascii. }
  pose proof (ceil_div_upper (length text) m ltac:(lia)) as Hup.
  fold n in Hup.
  rewrite (final_end_ascii text m n Hascii 0 ltac:(lia)) in Hdec.
  rewrite drop_ge in Hdec by lia. injection Hdec as <-.
  rewrite app_nil_r in Hrest.
  eexists. split; [exact Hsplit|]. split.
  - rewrite length_zip_with, length_seq. lia.
  - transitivity (Some (concat ps)); [by apply reassemble_labelled|].
    by f_equal.
Qed.

(** Nothing is lost either whenever the windows, each three bytes short
    of the budget, would still cover the text: for a text of at most
    [n * (budget - 3)] bytes, [n] being the number of segments, the
    payloads put together are the text. *)
Theorem split_text_exact_with_slack
    (self : TextToQRCode) (text bs : list N) (m : nat) :
  MAX_BYTES_PER_QR !! error_correction_level self = Some m →
  Utf8.encode text = Some bs →
  m < length bs →
  length bs ≤ ceil_div (length bs) m * (m - 3) →
  ∃ segs,
    split_text self text = Ok segs ∧
    reassemble segs = Some text.
Proof.
  intros Hm Henc Hlen Hslack. pose proof (budget_ge_4 _ _ Hm) as H4.
  destruct (split_text_long self text bs m Hm Henc Hlen)
    as (Hn & ps & Hsplit & Hwin).
  pose proof (Forall2_length _ _ _ Hwin) as Hl.
  rewrite split_windows_length in Hl.
  set (n := ceil_div (length bs) m) in *.
  pose proof (Utf8Facts.decode_encode _ _ Henc) as Hdec.
  destruct (windows_read bs m n 0 ps text Hwin) as (rest & Hrest & Hr).
  { by rewrite drop_0. }
  pose proof (final_end_bounds bs m n 0 ltac:(lia)) as Hb.
  assert (final_end bs m n 0 = length bs) as Hfull.
  { destruct (final_end_covers bs m H4 n 0) as [Hfull|Hcov]; [..|done|].
    - rewrite drop_0, Hdec. by eexists.
    - lia.
    - rewrite Nat.mul_sub_distr_l in Hslack. lia. }
  rewrite Hfull, drop_ge in Hr by lia. injection Hr as <-.
  rewrite app_nil_r in Hrest.
  eexists. split; [exact Hsplit|].
  transitivity (Some (concat ps)); [by apply reassemble_labelled|].
  by f_equal.
Qed.

(** Segments are filled almost to the budget: the payload of every
    segment but the last is at most three bytes short of it, and no
    payload is empty or over the budget. *)
Theorem split_text_segments_nearly_full
    (self : TextToQRCode) (text bs : list N) (m : nat) :
  MAX_BYTES_PER_QR !! error_correction_level self = Some m →
  Utf8.encode text = Some bs →
  m < length bs →
  let n := ceil_div (length bs) m in
  ∃ payloads,
    split_text self text = Ok (zip_with (labelled n) (seq 0 n) payloads) ∧
    length payloads = n ∧
    ∀ i p, payloads !! i = Some p →
      ∃ pb, Utf8.encode p = Some pb ∧
            0 < length pb ≤ m ∧
            (i + 1 < n → m ≤ length pb + 3).
Proof.
  intros Hm Henc Hlen n. pose proof (budget_ge_4 _ _ Hm) as H4.
  destruct (split_text_long self text bs m Hm Henc Hlen)
    as (Hn & ps & Hsplit & Hwin). fold n in Hn, Hsplit, Hwin.
  pose proof (Forall2_length _ _ _ Hwin) as Hl.
  rewrite split_windows_length in Hl.
  exists ps. split_and!; [done..|]. intros i p Hp.
  destruct (Forall2_lookup_r _ _ _ _ _ Hwin Hp)
    as (w & Hw & Hdec & _ & Hlt & Hwm & Hwl).
  exists (slice bs w.1 w.2). rewrite slice_length by done.
  split_and!; [by apply Utf8Facts.encode_decode|lia..|].
  intros Hi.
  assert (Forall (λ w, w.1 + m ≤ w.2 + 3 ∧ w.2 ≤ w.1 + m)
            (split_windows bs m (n - 1) 0)) as Hfull.
  { apply windows_nearly_full; [done| |].
    - rewrite drop_0, (Utf8Facts.decode_encode _ _ Henc). by eexists.
    - cbn. apply ceil_div_lower; [lia..|]. fold n. lia. }
  rewrite <- (take_split_windows bs m (n - 1) n 0) in Hfull by lia.
  rewrite Forall_lookup in Hfull.
  destruct (Hfull i w) as [Hnear _]; [|lia].
  rewrite lookup_take_lt by lia. done.
Qed.

(** [split_text] raises exactly when the level is undefined or the text
    cannot be encoded, and never from its own loop: on a defined level and
    an encodable text it returns [max(1, ceil(byte length / budget))]
    segments. *)
Theorem split_text_returns_iff (self : TextToQRCode) (text : list N) :
  (is_Ok (split_text self text) ↔
   is_Some (MAX_BYTES_PER_QR !! error_correction_level self) ∧
   is_Some (Utf8.encode text)) ∧
  ∀ m bs segs,
    MAX_BYTES_PER_QR !! error_correction_level self = Some m →
    Utf8.encode text = Some bs →
    split_text self text = Ok segs →
    length segs = max 1 (ceil_div (length bs) m).
Proof.
  assert (∀ m bs,
    MAX_BYTES_PER_QR !! error_correction_level self = Some m →
    Utf8.encode text = Some bs →
    ∃ segs, split_text self text = Ok segs ∧
            length segs = max 1 (ceil_div (length bs) m)) as Hret.
  { intros m bs Hm Henc. pose proof (budget_ge_4 _ _ Hm) as H4.
    destruct (decide (length bs ≤ m)) as [Hshort|Hlong].
    - exists [text]. split; [by eapply short_text_unsplit|].
      pose proof (ceil_div_least (length bs) m 1 ltac:(lia) ltac:(lia)).
      cbn [length]. lia.
    - destruct (long_text_segments self text bs m Hm Henc ltac:(lia))
        as (segs & Hsplit & Hcount & _).
      exists segs. split; [done|].
      pose proof (ceil_div_upper (length bs) m ltac:(lia)). nia. }
  split; [split|].
  - intros [segs Hsegs]. unfold split_text, dict_get, str_encode in Hsegs.
    destruct (MAX_BYTES_PER_QR !! error_correction_level self); [|done].
    destruct (Utf8.encode text); [|done]. eauto.
  - intros [[m Hm] [bs Henc]].
    destruct (Hret m bs Hm Henc) as (segs & Hsplit & _). by exists segs.
  - intros m bs segs Hm Henc Hsegs.
    destruct (Hret m bs Hm Henc) as (segs' & Hsplit & Hcount). congruence.
Qed.

(** [get_text_info] and [split_text] accept the same inputs, and the
    count reported is the number of segments except for the empty text:
    [split_text] returns [max(1, num_qrcodes)] segments. *)
Theorem get_text_info_agrees_with_split_text
    (self : TextToQRCode) (text : list N) :
  (is_Ok (get_text_info self text) ↔ is_Ok (split_text self text)) ∧
  ∀ info segs,
    get_text_info self text = Ok info →
    split_text self text = Ok segs →
    length segs = max 1 (num_qrcodes info).
Proof.
  unfold get_text_info, split_text, dict_get, str_encode.
  destruct (MAX_BYTES_PER_QR !! error_correction_level self) as [m|] eqn:Hm;
    destruct (Utf8.encode text) as [bs|] eqn:Henc;
    cbn [of_option mbind result_bind].
  2-4: by split; [split; intros [? ?]|intros ? ? ? ?].
  pose proof (budget_ge_4 _ _ Hm) as H4.
  assert (∃ segs, split_text self text = Ok segs ∧
                  length segs = max 1 (ceil_div (length bs) m))
    as (segs & Hsplit & Hcount).
  { destruct (decide (length bs ≤ m)) as [Hshort|Hlong].
    - exists [text]. split; [by eapply short_text_unsplit|].
      pose proof (ceil_div_least (length bs) m 1 ltac:(lia) ltac:(lia)).
      cbn [length]. lia.
    - destruct (long_text_segments self text bs m Hm Henc ltac:(lia))
        as (segs & Hsplit & Hcount & _).
      exists segs. split; [done|].
      pose proof (ceil_div_upper (length bs) m ltac:(lia)). nia. }
  unfold split_text, dict_get, str_encode in Hsplit.
  rewrite Hm, Henc in Hsplit. cbn [of_option mbind result_bind] in Hsplit.
  rewrite Hsplit. split.
  - split; intros _; by eexists.
  - intros info segs' Hinfo Hsegs. injection Hinfo as <-.
    injection Hsegs as <-. exact Hcount.
Qed.

(** The numbers [get_text_info] reports fit together: a character takes
    one to four bytes, the reported QR codes cover the bytes, one fewer
    would not, and no QR code at all is reported for the empty text
    only. *)
Theorem get_text_info_bounds
    (self : TextToQRCode) (text : list N) (info : TextInfo) :
  get_text_info self text = Ok info →
  char_count info ≤ byte_count info ≤ 4 * char_count info ∧
  byte_count info ≤ num_qrcodes info * max_bytes_per_qr info ∧
  (∀ k, S k = num_qrcodes info → k * max_bytes_per_qr info < byte_count info)
  ∧ (num_qrcodes info = 0 ↔ text = []).
Proof.
  unfold get_text_info, dict_get, str_encode. intros H.
  destruct (Utf8.encode text) as [bs|] eqn:Henc; [|done].
  destruct (MAX_BYTES_PER_QR !! error_correction_level self) as [m|] eqn:Hm;
    [|done].
  injection H as <-.
  cbn [char_count byte_count num_qrcodes max_bytes_per_qr].
  pose proof (budget_ge_4 _ _ Hm) as H4.
  pose proof (encode_length _ _ Henc) as Hlen.
  pose proof (ceil_div_upper (length bs) m ltac:(lia)) as Hup.
  split_and!; [lia..|done| |].
  - intros k Hk. destruct (decide (0 < length bs)) as [Hpos|Hz].
    + by apply ceil_div_lower; [lia..|].
    + pose proof (ceil_div_least (length bs) m 0 ltac:(lia) ltac:(lia)).
      lia.
  - split.
    + intros Hz. rewrite Hz in Hup. destruct text; [done|].
      cbn [length] in Hlen. lia.
    + intros ->. injection Henc as <-.
      pose proof (ceil_div_least 0 m 0 ltac:(lia) ltac:(lia)). cbn. lia.
Qed.

(** ** The facade's loops *)

Section FacadeMore.

Context {image fs : Type}.
Variable qr_make : qr_constant → Z → Z → list N → result image.
Variable img_save : image → list N → fs → fs * result unit.

Lemma images_loop_spec (self : TextToQRCode) (parts : list (list N)) :
  ∀ (acc images : list (image * list N)),
  images_loop qr_make self parts acc = Ok images ↔
  ∃ new, images = acc ++ new ∧
         Forall2 (λ seg im, generate_qrcode qr_make self seg = Ok im.1 ∧
                            im.2 = seg) parts new.
Proof.
  induction parts as [|part rest IH]; intros acc images; cbn [images_loop].
  { split.
    - intros [= <-]. exists []. by rewrite app_nil_r.
    - intros (new & -> & ->%Forall2_nil_inv_l). by rewrite app_nil_r. }
  destruct (generate_qrcode qr_make self part) as [img|e] eqn:Hgen;
    cbn [mbind result_bind].
  - rewrite IH. split.
    + intros (new & -> & Hnew). exists ((img, part) :: new).
      rewrite <- app_assoc. split; [done|]. by constructor.
    + intros (new & -> & Hnew).
      apply Forall2_cons_inv_l in Hnew as ([img' part'] & new' & [H1 H2]
        & Hnew & ->).
      cbn [fst snd] in H1, H2. rewrite Hgen in H1. injection H1 as <-.
      subst part'.
      exists new'. by rewrite <- app_assoc.
  - split; [done|].
    intros (new & -> & Hnew).
    apply Forall2_cons_inv_l in Hnew as (? & ? & [H1 _] & _).
    by rewrite Hgen in H1.
Qed.

Lemma images_loop_first_error (self : TextToQRCode)
    (done_ rest : list (list N)) (seg : list N) (e : exn) :
  Forall (λ s, is_Ok (generate_qrcode qr_make self s)) done_ →
  generate_qrcode qr_make self seg = Raise e →
  ∀ acc, images_loop qr_make self (done_ ++ seg :: rest) acc = Raise e.
Proof.
  intros Hdone Hseg. induction Hdone as [|s done_ [img Hs] _ IH];
    intros acc; cbn [app images_loop].
  - by rewrite Hseg.
  - rewrite Hs. cbn [mbind result_bind]. apply IH.
Qed.

(** [generate_qrcode_images] returns exactly the list that pairs every
    segment of [split_text], in order, with the image the encoder made of
    it. *)
Theorem generate_qrcode_images_pairs
    (self : TextToQRCode) (text : list N) (segs : list (list N))
    (images : list (image * list N)) :
  split_text self text = Ok segs →
  generate_qrcode_images qr_make self text = Ok images ↔
  Forall2 (λ seg im, generate_qrcode qr_make self seg = Ok im.1 ∧ im.2 = seg)
    segs images.
Proof.
  intros Hsplit. unfold generate_qrcode_images. rewrite Hsplit.
  cbn [mbind result_bind]. rewrite images_loop_spec. split.
  - by intros (new & -> & Hnew).
  - intros H. by exists images.
Qed.

(** [generate_qrcode_images] is all or nothing: when the encoder raises on
    a segment after accepting those before it, the call raises that error
    and no image is returned. *)
Theorem generate_qrcode_images_first_error
    (self : TextToQRCode) (text : list N)
    (done_ rest : list (list N)) (seg : list N) (e : exn) :
  split_text self text = Ok (done_ ++ seg :: rest) →
  Forall (λ s, is_Ok (generate_qrcode qr_make self s)) done_ →
  generate_qrcode qr_make self seg = Raise e →
  generate_qrcode_images qr_make self text = Raise e.
Proof.
  intros Hsplit Hdone Hseg. unfold generate_qrcode_images. rewrite Hsplit.
  cbn [mbind result_bind]. by apply images_loop_first_error.
Qed.

(** The loop of [text_to_qrcode] over segments the encoder accepts is the
    run of their saves; it then goes on with what is left. *)
Lemma save_loop_run (self : TextToQRCode) (pre : list N) (n : nat)
    (done_ : list (list N)) :
  ∀ (images : list image) (tail : list (list N)) (i : nat)
    (acc : list (list N)) (st : fs),
  Forall2 (λ seg img, generate_qrcode qr_make self seg = Ok img)
    done_ images →
  let names := (λ k, part_filename pre k n) <$> seq i (length done_) in
  save_loop qr_make img_save self pre n i (done_ ++ tail) acc st =
  match run_saves img_save (zip images names) st with
  | (st', Ok _) =>
      save_loop qr_make img_save self pre n (i + length done_) tail
        (acc ++ names) st'
  | (st', Raise e) => (st', Raise e)
  end.
Proof.
  induction done_ as [|seg done_ IH]; intros images tail i acc st Hgen;
    cbn zeta.
  { apply Forall2_nil_inv_l in Hgen as ->. cbn.
    by rewrite Nat.add_0_r, app_nil_r. }
  apply Forall2_cons_inv_l in Hgen as (img & images' & Hseg & Hgen & ->).
  cbn [app save_loop length seq fmap list_fmap zip zip_with run_saves].
  rewrite Hseg.
  destruct (img_save img (part_filename pre i n) st) as [st1 [[]|e]];
    [|done].
  rewrite (IH images' tail (S i) _ st1 Hgen). cbn zeta.
  destruct (run_saves _ _ st1) as [st2 [[]|e]]; [|done].
  rewrite <- app_assoc. cbn [app]. f_equal. lia.
Qed.

(** When the encoder accepts every segment, [text_to_qrcode] is the run
    of the saves of their images, in segment order, each under the name of
    its index: it returns all the names if every save succeeds and the
    error of the first save that fails otherwise, with the file system as
    that run left it. *)
Theorem text_to_qrcode_runs_saves
    (self : TextToQRCode) (text output_prefix : list N)
    (segs : list (list N)) (images : list image) (st : fs) :
  split_text self text = Ok segs →
  Forall2 (λ seg img, generate_qrcode qr_make self seg = Ok img)
    segs images →
  let names :=
    (λ k, part_filename output_prefix k (length segs))
      <$> seq 0 (length segs) in
  text_to_qrcode qr_make img_save self text output_prefix st =
  match run_saves img_save (zip images names) st with
  | (st', Ok _) => (st', Ok names)
  | (st', Raise e) => (st', Raise e)
  end.
Proof.
  intros Hsplit Hgen names. unfold text_to_qrcode. rewrite Hsplit.
  rewrite <- (app_nil_r segs) at 2.
  rewrite (save_loop_run self output_prefix (length segs) segs images []
    0 [] st Hgen). cbn zeta. fold names.
  by destruct (run_saves _ _ st) as [st' [[]|e]].
Qed.

(** [text_to_qrcode] does not roll back: when the encoder raises on a
    segment after accepting those before it, the files of the earlier
    segments have been saved, in order, and the call raises the encoder's
    error (or that of an earlier save that failed) without returning any
    path. *)
Theorem text_to_qrcode_no_rollback
    (self : TextToQRCode) (text output_prefix : list N)
    (done_ rest : list (list N)) (seg : list N) (images : list image)
    (e : exn) (st : fs) :
  split_text self text = Ok (done_ ++ seg :: rest) →
  Forall2 (λ seg img, generate_qrcode qr_make self seg = Ok img)
    done_ images →
  generate_qrcode qr_make self seg = Raise e →
  let n := length (done_ ++ seg :: rest) in
  let names :=
    (λ k, part_filename output_prefix k n) <$> seq 0 (length done_) in
  text_to_qrcode qr_make img_save self text output_prefix st =
  match run_saves img_save (zip images names) st with
  | (st', Ok _) => (st', Raise e)
  | (st', Raise e') => (st', Raise e')
  end.
Proof.
  intros Hsplit Hgen Hseg n names. unfold text_to_qrcode. rewrite Hsplit.
  fold n.
  rewrite (save_loop_run self output_prefix n done_ images (seg :: rest)
    0 [] st Hgen). cbn zeta. fold names.
  destruct (run_saves _ _ st) as [st' [[]|e']]; [|done].
  cbn [save_loop]. by rewrite Hseg.
Qed.

(** The two tables have the same keys: once [split_text] has accepted the
    level, [generate_qrcode] finds its constant and hands the segment to
    the encoder with the configured box size and border, so that whatever
    is raised then comes from the encoder. *)
Theorem generate_qrcode_reaches_encoder
    (self : TextToQRCode) (text seg : list N) :
  is_Ok (split_text self text) →
  ∃ ec,
    error_correction_map !! error_correction_level self = Some ec ∧
    generate_qrcode qr_make self seg =
      qr_make ec (box_size self) (border self) seg.
Proof.
  intros [segs Hsplit]. unfold split_text, dict_get in Hsplit.
  destruct (MAX_BYTES_PER_QR !! error_correction_level self) as [m|] eqn:Hm;
    [|done].
  unfold generate_qrcode, dict_get.
  apply MAX_BYTES_PER_QR_lookup in Hm
    as [[-> _]|[[-> _]|[[-> _]|[-> _]]]]; eexists; by split.
Qed.

End FacadeMore.

(** ** File names *)

Lemma uint_str_inj (d d' : Decimal.uint) : uint_str d = uint_str d' → d = d'.
Proof.
  revert d'. induction d as [|d IH|d IH|d IH|d IH|d IH|d IH|d IH|d IH|d IH|d IH];
    intros [|d'|d'|d'|d'|d'|d'|d'|d'|d'|d'] H; cbn [uint_str] in H;
    try discriminate H; try reflexivity;
    injection H as H; f_equal; by apply IH.
Qed.

Lemma str_of_int_inj (a b : nat) : str_of_int a = str_of_int b → a = b.
Proof.
  intros H%uint_str_inj. by apply DecimalNat.Unsigned.to_uint_inj.
Qed.

(** No two segments share a file name: the paths [text_to_qrcode] returns
    are pairwise distinct, so no segment's image overwrites another's. *)
Theorem text_to_qrcode_paths_distinct {image fs : Type}
    (qr_make : qr_constant → Z → Z → list N → result image)
    (img_save : image → list N → fs → fs * result unit)
    (self : TextToQRCode) (text output_prefix : list N)
    (st st' : fs) (paths : list (list N)) :
  text_to_qrcode qr_make img_save self text output_prefix st
    = (st', Ok paths) →
  NoDup paths.
Proof.
  unfold text_to_qrcode. destruct (split_text self text) as [segs|e]; [|done].
  intros ->%save_loop_paths. cbn [app].
  apply NoDup_fmap_2_strong; [|apply NoDup_seq].
  intros i j Hi%elem_of_seq Hj%elem_of_seq. unfold part_filename.
  destruct (Nat.ltb_spec 1 (length segs)) as [Hn|Hn]; [|lia].
  intros H. do 2 apply app_inv_head in H. apply app_inv_tail in H.
  apply str_of_int_inj in H. lia.
Qed.


(** * The front ends *)

Module CliFacts.
Import Cli.

Lemma lstrip_split (s : list N) :
  ∃ sp, s = sp ++ lstrip s ∧ Forall (λ c, is_space c = true) sp.
Proof.
  induction s as [|c s (sp & Hs & Hsp)]; [by exists []|]. cbn [lstrip].
  destruct (is_space c) eqn:Hc.
  - exists (c :: sp). split; [by rewrite Hs at 1|by constructor].
  - by exists [].
Qed.

Lemma lstrip_nil_iff (s : list N) :
  lstrip s = [] ↔ Forall (λ c, is_space c = true) s.
Proof.
  induction s as [|c s IH]; cbn [lstrip]; [done|].
  destruct (is_space c) eqn:Hc.
  - rewrite IH. split; [by constructor|by inversion 1].
  - split; [done|]. inversion 1; congruence.
Qed.

Lemma str_strip_nil_iff (s : list N) :
  str_strip s = [] ↔ Forall (λ c, is_space c = true) s.
Proof.
  unfold str_strip.
  destruct (lstrip_split s) as (sp & Hs & Hsp).
  rewrite <- (reverse_involutive []), (inj_iff reverse).
  rewrite reverse_nil, lstrip_nil_iff, Forall_reverse.
  rewrite Hs at 2. rewrite Forall_app. split; [done|].
  intros [_ H]. done.
Qed.

(** The front end's emptiness test rejects exactly the texts made of
    white space only, the empty text among them. *)
Lemma blank_spec (text : list N) :
  blank text = true ↔ Forall (λ c, is_space c = true) text.
Proof.
  unfold blank. destruct text as [|c t]; [done|].
  rewrite <- str_strip_nil_iff. by destruct (str_strip (c :: t)).
Qed.

Section MainFacts.

Context {image fs : Type}.
Variable open_read : fs → list N → read_result.
Variable stdin_read : stdin_result.
Variable getsize : fs → list N → result nat.
Variable qr_make : qr_constant → Z → Z → list N → result image.
Variable img_save : image → list N → fs → fs * result unit.

Local Abbreviation main :=
  (Cli.main open_read stdin_read getsize qr_make img_save).
Local Abbreviation acquire := (Cli.acquire open_read stdin_read).

(** The run stops with the empty-text message and status 1, before the
    converter is built and with nothing written, exactly when the text is
    made of white space only (the empty text included). *)
Theorem main_rejects_blank
    (args : Namespace) (st : fs) (ms : list message) (text : list N) :
  acquire args st = (ms, inr text) →
  Forall (λ c, is_space c = true) text ↔
  main args st =
    {| out := ms ++ [ErrEmptyText]; files := st; ended := Exit 1 |}.
Proof.
  intros Hacq. rewrite <- blank_spec. unfold Cli.main. cbn zeta.
  rewrite Hacq. destruct (blank text); [done|]. split; [done|].
  assert (∀ (info : TextInfo) (rest : list message),
    (ms ++ [InfoBlock info] ++ rest) ≠ ms ++ [ErrEmptyText]) as Hout.
  { intros info rest H%app_inv_head. discriminate H. }
  destruct (get_text_info (converter_of args) text) as [info|e]; [|done].
  destruct (args_info args); [done|].
  destruct (text_to_qrcode _ _ _ _ _ _) as [st' [paths|e]].
  - destruct (list_files _ _ _ _) as [lines [[]|e]]; [done|].
    intros H. apply (f_equal out) in H. cbn [out] in H.
    rewrite <- !app_assoc in H. by apply Hout in H.
  - intros H. apply (f_equal out) in H. cbn [out] in H.
    rewrite <- !app_assoc in H. by apply Hout in H.
Qed.

(** With [--info] nothing is ever written, and the run ends with status 0
    whenever the text is not blank and [get_text_info] accepts it. *)
Theorem main_info_writes_nothing (args : Namespace) (st : fs) :
  args_info args = true →
  files (main args st) = st ∧
  ∀ ms text info,
    acquire args st = (ms, inr text) →
    blank text = false →
    get_text_info (converter_of args) text = Ok info →
    ended (main args st) = Exit 0.
Proof.
  intros Hinfo. unfold Cli.main. cbn zeta. split.
  - destruct (acquire args st) as [ms [s|text]]; [done|].
    destruct (blank text); [done|].
    destruct (get_text_info (converter_of args) text); [|done].
    by rewrite Hinfo.
  - intros ms text info Hacq Hblank Hget.
    by rewrite Hacq, Hblank, Hget, Hinfo.
Qed.



(** [argparse] admits the levels L, M, Q and H only, so no KeyError ends
    the run: an exception that nothing catches is either the one raised by
    reading the standard input or the UnicodeEncodeError of a text with a
    lone surrogate. *)
Theorem main_uncaught_only_encoding
    (args : Namespace) (st : fs) (e : exn) :
  args_error_correction args ∈ choices →
  ended (main args st) = Uncaught e →
  stdin_read = StdinFailed e ∨ e = UnicodeEncodeError.
Proof.
  intros Hlevel.
  assert (∀ text e',
    get_text_info (converter_of args) text = Raise e' →
    e' = UnicodeEncodeError) as Hget.
  { intros text e'. unfold get_text_info, dict_get, str_encode.
    destruct (Utf8.encode text); cbn; [|by intros [= <-]].
    unfold choices in Hlevel. rewrite !elem_of_cons, elem_of_nil in Hlevel.
    by destruct Hlevel as [->|[->|[->|[->|[]]]]]. }
  unfold Cli.main. cbn zeta.
  destruct (acquire args st) as [ms [s|text]] eqn:Hacq.
  - cbn. intros ->. left. unfold Cli.acquire, read_from_file,
      read_from_stdin in Hacq.
    repeat case_match; simplify_eq; done.
  - destruct (blank text); [done|].
    destruct (get_text_info (converter_of args) text) as [info|e'] eqn:Hinfo.
    + destruct (args_info args); [done|].
      destruct (text_to_qrcode _ _ _ _ _ _) as [st' [paths|e']]; [|done].
      by destruct (list_files _ _ _ _) as [lines [[]|e']].
    + cbn. intros [= <-]. right. by eapply Hget.
Qed.

End MainFacts.

(** A non-empty [--text] is the text converted, and neither the file nor
    the standard input is read: the run is the same whatever they hold.
    An empty [--text] counts as absent. *)
Theorem main_text_sources {image fs : Type}
    (open_read open_read' : fs → list N → read_result)
    (stdin_read stdin_read' : stdin_result)
    (getsize : fs → list N → result nat)
    (qr_make : qr_constant → Z → Z → list N → result image)
    (img_save : image → list N → fs → fs * result unit)
    (args : Namespace) (st : fs) :
  (∀ c t, args_text args = Some (c :: t) →
     Cli.acquire open_read stdin_read args st = ([], inr (c :: t)) ∧
     Cli.main open_read stdin_read getsize qr_make img_save args st =
     Cli.main open_read' stdin_read' getsize qr_make img_save args st) ∧
  (args_text args = Some [] →
     Cli.main open_read stdin_read getsize qr_make img_save args st =
     Cli.main open_read stdin_read getsize qr_make img_save
       {| args_text := None; args_file := args_file args;
          args_output := args_output args;
          args_error_correction := args_error_correction args;
          args_box_size := args_box_size args;
          args_border := args_border args;
          args_info := args_info args |} st).
Proof.
  split.
  - intros c t Ht. unfold Cli.main, Cli.acquire. by rewrite Ht.
  - intros Ht. unfold Cli.main, Cli.acquire. by rewrite Ht.
Qed.

End CliFacts.

(** Every level a front end can configure is a key of both tables of the
    converter: the choices of the command line are exactly the keys of
    [MAX_BYTES_PER_QR], and the first character of every value of the
    window's combobox, and of its initial value, is one of them. *)
Theorem front_end_levels_defined :
  (∀ level, level ∈ Cli.choices ↔ is_Some (MAX_BYTES_PER_QR !! level)) ∧
  (∀ level, level ∈ Cli.choices ↔ is_Some (error_correction_map !! level)) ∧
  ∀ value, value ∈ "M" :: Gui.combobox_values →
    ∃ level, Gui.get_error_correction_level value = Some level ∧
             level ∈ Cli.choices.
Proof.
  split_and!.
  - intros level. split.
    + unfold Cli.choices. rewrite !elem_of_cons, elem_of_nil.
      intros [->|[->|[->|[->|[]]]]]; by eexists.
    + intros [m Hm]. apply MAX_BYTES_PER_QR_lookup in Hm.
      destruct Hm as [[-> _]|[[-> _]|[[-> _]|[-> _]]]];
        unfold Cli.choices; repeat constructor.
  - intros level. split.
    + unfold Cli.choices. rewrite !elem_of_cons, elem_of_nil.
      intros [->|[->|[->|[->|[]]]]]; by eexists.
    + intros [ec Hec]. unfold error_correction_map in Hec.
      apply lookup_insert_Some in Hec as [[<- _]|[_ Hec]];
        [unfold Cli.choices; repeat constructor|].
      apply lookup_insert_Some in Hec as [[<- _]|[_ Hec]];
        [unfold Cli.choices; repeat constructor|].
      apply lookup_insert_Some in Hec as [[<- _]|[_ Hec]];
        [unfold Cli.choices; repeat constructor|].
      apply lookup_singleton_Some in Hec as [<- _].
      unfold Cli.choices. repeat constructor.
  - intros value. unfold Gui.combobox_values.
    rewrite !elem_of_cons, elem_of_nil.
    intros [->|[->|[->|[->|[->|[]]]]]]; eexists; (split; [reflexivity|]);
      unfold Cli.choices; repeat constructor.
Qed.

(** ** The inner loop *)

(** The [while] loop of [split_text], entered below the end of the bytes,
    settles on the last position not after the candidate end at which the
    window decodes: the window it leaves decodes, no longer window up to
    the candidate does, the window is never negative, and when the bytes
    from [start] on are well-formed it is at most three bytes shorter than
    the candidate. *)
Theorem adjust_end_greatest_boundary (bs : list N) (s e : nat) :
  s ≤ e → e < length bs →
  let e' := adjust_end bs s e in
  s ≤ e' ≤ e ∧
  is_Some (Utf8.decode (slice bs s e')) ∧
  (∀ e'', e' < e'' ≤ e → Utf8.decode (slice bs s e'') = None) ∧
  (is_Some (Utf8.decode (drop s bs)) → e < e' + 4).
Proof.
  intros Hs He e'. split_and!.
  - by apply adjust_end_ge_start.
  - apply adjust_end_le.
  - by apply adjust_end_decodes.
  - intros e'' [Hlo Hhi].
    destruct (Utf8.decode (slice bs s e'')) as [u|] eqn:Hu; [|done].
    pose proof (adjust_end_ge bs s e e'' He Hhi ltac:(by eexists)).
    unfold e' in Hlo. lia.
  - intros Hdec. apply adjust_end_within_3; [done..|lia].
Qed.

(** ** The further properties at concrete inputs *)

Lemma split_text_loss_bound_witness :
  let bs := replicate 1199 97%N ++ [195%N; 169%N] ++ replicate 1199 97%N in
  MAX_BYTES_PER_QR !! "H" = Some 1200 ∧
  Utf8.encode straddling_text = Some bs ∧
  1200 < length bs ∧
  ∃ segs kept rest rb,
    split_text (converter "H") straddling_text = Ok segs ∧
    reassemble segs = Some kept ∧
    straddling_text = kept ++ rest ∧
    Utf8.encode rest = Some rb ∧
    length rb ≤ 3 * length segs.
Proof.
  intros bs.
  assert (MAX_BYTES_PER_QR !! "H" = Some 1200) as h1 by reflexivity.
  assert (Utf8.encode straddling_text = Some bs) as h2
    by (vm_compute; reflexivity).
  assert (1200 < length bs) as h3
    by (apply Nat.ltb_lt; vm_compute; reflexivity).
  exact (conj h1 (conj h2 (conj h3
    (split_text_loss_bound (converter "H") _ _ _ h1 h2 h3)))).
Defined.

Lemma split_text_ascii_exact_witness :
  MAX_BYTES_PER_QR !! "H" = Some 1200 ∧
  Forall (λ c, (c < 128)%N) one_over_text ∧
  1200 < length one_over_text ∧
  ∃ segs,
    split_text (converter "H") one_over_text = Ok segs ∧
    length segs = ceil_div (length one_over_text) 1200 ∧
    reassemble segs = Some one_over_text.
Proof.
  assert (MAX_BYTES_PER_QR !! "H" = Some 1200) as h1 by reflexivity.
  assert (Forall (λ c, (c < 128)%N) one_over_text) as h2
    by (apply Forall_replicate; reflexivity).
  assert (1200 < length one_over_text) as h3
    by (apply Nat.ltb_lt; vm_compute; reflexivity).
  exact (conj h1 (conj h2 (conj h3
    (split_text_ascii_exact (converter "H") _ _ h1 h2 h3)))).
Defined.

Lemma split_text_exact_with_slack_witness :
  let bs := replicate 1199 97%N ++ [195%N; 169%N] ++ replicate 1000 97%N in
  MAX_BYTES_PER_QR !! "H" = Some 1200 ∧
  Utf8.encode accented_text = Some bs ∧
  1200 < length bs ∧
  length bs ≤ ceil_div (length bs) 1200 * (1200 - 3) ∧
  ∃ segs,
    split_text (converter "H") accented_text = Ok segs ∧
    reassemble segs = Some accented_text.
Proof.
  intros bs.
  assert (MAX_BYTES_PER_QR !! "H" = Some 1200) as h1 by reflexivity.
  assert (Utf8.encode accented_text = Some bs) as h2
    by (vm_compute; reflexivity).
  assert (1200 < length bs) as h3
    by (apply Nat.ltb_lt; vm_compute; reflexivity).
  assert (length bs ≤ ceil_div (length bs) 1200 * (1200 - 3)) as h4
    by (apply Nat.leb_le; vm_compute; reflexivity).
  exact (conj h1 (conj h2 (conj h3 (conj h4
    (split_text_exact_with_slack (converter "H") _ _ _ h1 h2 h3 h4))))).
Defined.

Lemma split_text_segments_nearly_full_witness :
  let bs := replicate 1199 97%N ++ [195%N; 169%N] ++ replicate 1199 97%N in
  MAX_BYTES_PER_QR !! "H" = Some 1200 ∧
  Utf8.encode straddling_text = Some bs ∧
  1200 < length bs ∧
  ∃ payloads,
    split_text (converter "H") straddling_text
      = Ok (zip_with (labelled (ceil_div (length bs) 1200))
              (seq 0 (ceil_div (length bs) 1200)) payloads) ∧
    length payloads = ceil_div (length bs) 1200 ∧
    ∀ i p, payloads !! i = Some p →
      ∃ pb, Utf8.encode p = Some pb ∧
            0 < length pb ≤ 1200 ∧
            (i + 1 < ceil_div (length bs) 1200 → 1200 ≤ length pb + 3).
Proof.
  intros bs.
  assert (MAX_BYTES_PER_QR !! "H" = Some 1200) as h1 by reflexivity.
  assert (Utf8.encode straddling_text = Some bs) as h2
    by (vm_compute; reflexivity).
  assert (1200 < length bs) as h3
    by (apply Nat.ltb_lt; vm_compute; reflexivity).
  exact (conj h1 (conj h2 (conj h3
    (split_text_segments_nearly_full (converter "H") _ _ _ h1 h2 h3)))).
Defined.

Lemma split_text_returns_iff_witness :
  is_Some (MAX_BYTES_PER_QR !! "M") ∧
  is_Some (Utf8.encode (lit "Hello, World!")) ∧
  is_Ok (split_text (converter "M") (lit "Hello, World!")).
Proof.
  assert (is_Some (MAX_BYTES_PER_QR !! "M")) as h1 by (by eexists).
  assert (is_Some (Utf8.encode (lit "Hello, World!"))) as h2
    by (by eexists).
  exact (conj h1 (conj h2
    (proj2 (proj1 (split_text_returns_iff (converter "M")
                     (lit "Hello, World!"))) (conj h1 h2)))).
Defined.

Lemma get_text_info_agrees_with_split_text_witness :
  let info := {| char_count := 0; byte_count := 0;
                 max_bytes_per_qr := 2300; num_qrcodes := 0;
                 error_correction := "M" |} in
  get_text_info (converter "M") [] = Ok info ∧
  split_text (converter "M") [] = Ok [[]] ∧
  length [[] : list N] = max 1 (num_qrcodes info).
Proof.
  intros info.
  assert (get_text_info (converter "M") [] = Ok info) as h1 by reflexivity.
  assert (split_text (converter "M") [] = Ok [[]]) as h2 by reflexivity.
  exact (conj h1 (conj h2
    (proj2 (get_text_info_agrees_with_split_text (converter "M") [])
       info [[]] h1 h2))).
Defined.

Lemma get_text_info_bounds_witness :
  let text := [20320%N; 22909%N] in
  let info := {| char_count := 2; byte_count := 6;
                 max_bytes_per_qr := 1600; num_qrcodes := 1;
                 error_correction := "Q" |} in
  get_text_info (converter "Q") text = Ok info ∧
  char_count info ≤ byte_count info ≤ 4 * char_count info ∧
  byte_count info ≤ num_qrcodes info * max_bytes_per_qr info ∧
  (∀ k, S k = num_qrcodes info → k * max_bytes_per_qr info < byte_count info)
  ∧ (num_qrcodes info = 0 ↔ text = []).
Proof.
  intros text info.
  assert (get_text_info (converter "Q") text = Ok info) as h1
    by reflexivity.
  exact (conj h1 (get_text_info_bounds (converter "Q") text info h1)).
Defined.

Lemma generate_qrcode_images_pairs_witness :
  let text := lit "Hello, World!" in
  split_text (converter "M") text = Ok [text] ∧
  (generate_qrcode_images echo_encoder (converter "M") text
     = Ok [(text, text)] ↔
   Forall2 (λ seg im, generate_qrcode echo_encoder (converter "M") seg
                        = Ok im.1 ∧ im.2 = seg)
     [text] [(text, text)]).
Proof.
  intros text.
  assert (split_text (converter "M") text = Ok [text]) as h1 by reflexivity.
  exact (conj h1
    (generate_qrcode_images_pairs echo_encoder (converter "M") text [text]
       [(text, text)] h1)).
Defined.

Lemma generate_qrcode_images_first_error_witness :
  let first := part_prefix 1 2 ++ replicate 1200 97%N in
  let second := part_prefix 2 2 ++ [97%N] in
  split_text (converter "H") one_over_text = Ok ([first] ++ second :: []) ∧
  Forall (λ s, is_Ok (generate_qrcode (picky_encoder 10) (converter "H") s))
    [first] ∧
  generate_qrcode (picky_encoder 10) (converter "H") second
    = Raise DataOverflowError ∧
  generate_qrcode_images (picky_encoder 10) (converter "H") one_over_text
    = Raise DataOverflowError.
Proof.
  intros first second.
  assert (split_text (converter "H") one_over_text
            = Ok ([first] ++ second :: [])) as h1
    by (vm_compute; reflexivity).
  assert (Forall
    (λ s, is_Ok (generate_qrcode (picky_encoder 10) (converter "H") s))
    [first]) as h2
    by (repeat constructor; eexists; vm_compute; reflexivity).
  assert (generate_qrcode (picky_encoder 10) (converter "H") second
            = Raise DataOverflowError) as h3 by (vm_compute; reflexivity).
  exact (conj h1 (conj h2 (conj h3
    (generate_qrcode_images_first_error (picky_encoder 10) (converter "H")
       one_over_text [first] [] second DataOverflowError h1 h2 h3)))).
Defined.

Lemma text_to_qrcode_runs_saves_witness :
  let text := lit "Hello, World!" in
  split_text (converter "M") text = Ok [text] ∧
  Forall2 (λ seg img, generate_qrcode echo_encoder (converter "M") seg
                        = Ok img) [text] [text] ∧
  text_to_qrcode echo_encoder log_save (converter "M") text (lit "qrcode") []
    = ([(lit "qrcode.png", text)], Ok [lit "qrcode.png"]).
Proof.
  intros text.
  assert (split_text (converter "M") text = Ok [text]) as h1 by reflexivity.
  assert (Forall2 (λ seg img, generate_qrcode echo_encoder (converter "M")
                                seg = Ok img) [text] [text]) as h2
    by (repeat constructor).
  exact (conj h1 (conj h2
    (text_to_qrcode_runs_saves echo_encoder log_save (converter "M") text
       (lit "qrcode") [text] [text] [] h1 h2))).
Defined.

Lemma text_to_qrcode_no_rollback_witness :
  let first := part_prefix 1 2 ++ replicate 1200 97%N in
  let second := part_prefix 2 2 ++ [97%N] in
  split_text (converter "H") one_over_text = Ok ([first] ++ second :: []) ∧
  Forall2 (λ seg img, generate_qrcode (picky_encoder 10) (converter "H") seg
                        = Ok img) [first] [first] ∧
  generate_qrcode (picky_encoder 10) (converter "H") second
    = Raise DataOverflowError ∧
  text_to_qrcode (picky_encoder 10) log_save (converter "H") one_over_text
    (lit "qrcode") []
    = ([(lit "qrcode_1_of_2.png", first)], Raise DataOverflowError).
Proof.
  intros first second.
  assert (split_text (converter "H") one_over_text
            = Ok ([first] ++ second :: [])) as h1
    by (vm_compute; reflexivity).
  assert (Forall2 (λ seg img, generate_qrcode (picky_encoder 10)
                                (converter "H") seg = Ok img)
            [first] [first]) as h2
    by (repeat constructor; vm_compute; reflexivity).
  assert (generate_qrcode (picky_encoder 10) (converter "H") second
            = Raise DataOverflowError) as h3 by (vm_compute; reflexivity).
  exact (conj h1 (conj h2 (conj h3
    (text_to_qrcode_no_rollback (picky_encoder 10) log_save (converter "H")
       one_over_text (lit "qrcode") [first] [] second [first]
       DataOverflowError [] h1 h2 h3)))).
Defined.

Lemma generate_qrcode_reaches_encoder_witness :
  is_Ok (split_text (converter "Q") (lit "abc")) ∧
  ∃ ec,
    error_correction_map !! "Q" = Some ec ∧
    generate_qrcode echo_encoder (converter "Q") (lit "abc")
      = echo_encoder ec 10 4 (lit "abc").
Proof.
  assert (is_Ok (split_text (converter "Q") (lit "abc"))) as h1
    by (by eexists).
  exact (conj h1
    (generate_qrcode_reaches_encoder echo_encoder (converter "Q")
       (lit "abc") (lit "abc") h1)).
Defined.

Lemma text_to_qrcode_paths_distinct_witness :
  let first := part_prefix 1 2 ++ replicate 1200 97%N in
  let second := part_prefix 2 2 ++ [97%N] in
  let paths := [lit "qrcode_1_of_2.png"; lit "qrcode_2_of_2.png"] in
  text_to_qrcode echo_encoder log_save (converter "H") one_over_text
    (lit "qrcode") []
    = ([(lit "qrcode_1_of_2.png", first); (lit "qrcode_2_of_2.png", second)],
       Ok paths) ∧
  NoDup paths.
Proof.
  intros first second paths.
  assert (text_to_qrcode echo_encoder log_save (converter "H") one_over_text
            (lit "qrcode") []
          = ([(lit "qrcode_1_of_2.png", first);
              (lit "qrcode_2_of_2.png", second)], Ok paths)) as h1
    by (vm_compute; reflexivity).
  exact (conj h1
    (text_to_qrcode_paths_distinct echo_encoder log_save (converter "H")
       one_over_text (lit "qrcode") [] _ paths h1)).
Defined.

Lemma main_rejects_blank_witness :
  let args := args_of [32%N; 9%N; 10%N] "M" false in
  let st : list (list N * list N) := [] in
  Cli.acquire absent_file (Cli.StdinText []) args st
    = ([], inr [32%N; 9%N; 10%N]) ∧
  Forall (λ c, Cli.is_space c = true) [32%N; 9%N; 10%N] ∧
  Cli.main absent_file (Cli.StdinText []) known_size echo_encoder log_save
    args st
    = {| Cli.out := [] ++ [Cli.ErrEmptyText]; Cli.files := st;
         Cli.ended := Cli.Exit 1 |}.
Proof.
  intros args st.
  assert (Cli.acquire absent_file (Cli.StdinText []) args st
            = ([], inr [32%N; 9%N; 10%N])) as h1 by reflexivity.
  assert (Forall (λ c, Cli.is_space c = true) [32%N; 9%N; 10%N]) as h2
    by (repeat constructor).
  exact (conj h1 (conj h2
    (proj1 (CliFacts.main_rejects_blank absent_file (Cli.StdinText [])
              known_size echo_encoder log_save args st [] _ h1) h2))).
Defined.

Lemma main_info_writes_nothing_witness :
  let args := args_of (lit "Hello, World!") "M" true in
  let st : list (list N * list N) := [] in
  Cli.args_info args = true ∧
  Cli.files (Cli.main absent_file (Cli.StdinText []) known_size echo_encoder
               log_save args st) = st.
Proof.
  intros args st.
  assert (Cli.args_info args = true) as h1 by reflexivity.
  exact (conj h1
    (proj1 (CliFacts.main_info_writes_nothing absent_file (Cli.StdinText [])
              known_size echo_encoder log_save args st h1))).
Defined.


Lemma main_uncaught_only_encoding_witness :
  let args := args_of [0xD800%N] "M" false in
  let st : list (list N * list N) := [] in
  ("M" ∈ Cli.choices) ∧
  Cli.ended (Cli.main absent_file (Cli.StdinText []) known_size echo_encoder
               log_save args st) = Cli.Uncaught UnicodeEncodeError ∧
  (Cli.StdinText [] = Cli.StdinFailed UnicodeEncodeError ∨
   UnicodeEncodeError = UnicodeEncodeError).
Proof.
  intros args st.
  assert ("M" ∈ Cli.choices) as h1
    by (apply (bool_decide_unpack _); vm_compute; exact I).
  assert (Cli.ended (Cli.main absent_file (Cli.StdinText []) known_size
                       echo_encoder log_save args st)
          = Cli.Uncaught UnicodeEncodeError) as h2 by reflexivity.
  exact (conj h1 (conj h2
    (CliFacts.main_uncaught_only_encoding absent_file (Cli.StdinText [])
       known_size echo_encoder log_save args st UnicodeEncodeError h1 h2))).
Defined.

Lemma main_text_sources_witness :
  let args := args_of (lit "Hello, World!") "M" false in
  let st : list (list N * list N) := [] in
  Cli.args_text args = Some (lit "Hello, World!") ∧
  Cli.main absent_file (Cli.StdinText []) known_size echo_encoder log_save
    args st =
  Cli.main (λ _ _, Cli.ReadFailed) Cli.StdinInterrupt known_size echo_encoder
    log_save args st.
Proof.
  intros args st.
  assert (Cli.args_text args = Some (lit "Hello, World!")) as h1
    by reflexivity.
  exact (conj h1
    (proj2 (proj1 (CliFacts.main_text_sources absent_file
                     (λ _ _, Cli.ReadFailed) (Cli.StdinText [])
                     Cli.StdinInterrupt known_size echo_encoder log_save
                     args st) _ _ h1))).
Defined.

Lemma front_end_levels_defined_witness :
  ("Q (25%)" ∈ "M" :: Gui.combobox_values) ∧
  ∃ level, Gui.get_error_correction_level "Q (25%)" = Some level ∧
           level ∈ Cli.choices.
Proof.
  assert ("Q (25%)" ∈ "M" :: Gui.combobox_values) as h1
    by (apply (bool_decide_unpack _); vm_compute; exact I).
  exact (conj h1 (proj2 (proj2 front_end_levels_defined) _ h1)).
Defined.

Lemma adjust_end_greatest_boundary_witness :
  let bs := [97%N; 195%N; 169%N; 97%N] in
  0 ≤ 2 ∧ 2 < length bs ∧
  adjust_end bs 0 2 = 1 ∧
  is_Some (Utf8.decode (slice bs 0 (adjust_end bs 0 2))) ∧
  (∀ e'', adjust_end bs 0 2 < e'' ≤ 2 →
     Utf8.decode (slice bs 0 e'') = None).
Proof.
  intros bs.
  assert (0 ≤ 2) as h1 by lia.
  assert (2 < length bs) as h2 by (cbn; lia).
  pose proof (adjust_end_greatest_boundary bs 0 2 h1 h2)
    as (_ & h3 & h4 & _).
  exact (conj h1 (conj h2 (conj eq_refl (conj h3 h4)))).
Defined.
